(** * Shallow embedding of the gla2ozz importer, the GLA parser and the
    ozz-retarget tool of opengl-with-jank.

    Scalars ([float] in the C++ sources) are modelled by the real numbers [R];
    byte buffers ([std::vector<uint8_t>]) by [list Byte.byte]; [size_t]
    arithmetic by [Z] with its wrap-around modulo 2^64 written out;
    [std::vector] indexed by [operator[]] by [list] with [nth] and [upd]. *)

From Stdlib Require Import Reals Psatz ZArith List String Lia.
From Stdlib Require Import Init.Byte Strings.Byte.
Import ListNotations.

Open Scope R_scope.

(** ** ozz math types (ozz/base/maths) *)

Record Float3 := mkFloat3 { f3x : R; f3y : R; f3z : R }.

(** [ozz::math::Quaternion(x, y, z, w)]: scalar last. *)
Record Quaternion := mkQuat { qx : R; qy : R; qz : R; qw : R }.

Definition Float3_zero : Float3 := mkFloat3 0 0 0.
Definition Float3_one : Float3 := mkFloat3 1 1 1.
Definition Quaternion_identity : Quaternion := mkQuat 0 0 0 1.

(** An affine transform as stored in ozz rest poses and sampled locals. *)
Record Transform := mkTransform {
  translation : Float3; rotation : Quaternion; scale : Float3 }.

(** ** Lists used as [std::vector] *)

(** [v[i] = x] on a vector; indices in range in every use below. *)
Fixpoint upd {A} (l : list A) (i : nat) (x : A) : list A :=
  match l, i with
  | [], _ => []
  | _ :: t, O => x :: t
  | h :: t, S i' => h :: upd t i' x
  end.

(** ** Quaternion product [a * b], as written in gla_parser.cc
    ([QuaternionMultiply]), inlined in gla2ozz.cc and in ozz-retarget
    ([QuatMul]): the same formula in all three places. *)
Definition qmul (a b : Quaternion) : Quaternion :=
  mkQuat (qw a * qx b + qx a * qw b + qy a * qz b - qz a * qy b)
         (qw a * qy b - qx a * qz b + qy a * qw b + qz a * qx b)
         (qw a * qz b + qx a * qy b - qy a * qx b + qz a * qw b)
         (qw a * qw b - qx a * qx b - qy a * qy b - qz a * qz b).

(** * coordinate_convert.h *)
Module coord_convert.

(** [constexpr float SCALE_FACTOR = 0.0254f] *)
Definition SCALE_FACTOR : R := 254 / 10000.

Definition ConvertPosition (x y z : R) : Float3 :=
  mkFloat3 (x * SCALE_FACTOR) (z * SCALE_FACTOR) (- y * SCALE_FACTOR).

Definition ConvertPosition3 (pos : Float3) : Float3 :=
  ConvertPosition (f3x pos) (f3y pos) (f3z pos).

Definition ConvertQuaternion (x y z w : R) : Quaternion := mkQuat x z (- y) w.

Definition ConvertQuaternion4 (q : Quaternion) : Quaternion :=
  ConvertQuaternion (qx q) (qy q) (qz q) (qw q).

(** [len_sq < 1e-10f] returns identity, else scale by [1/sqrt(len_sq)]. *)
Definition NormalizeQuaternion (q : Quaternion) : Quaternion :=
  let len_sq := qx q * qx q + qy q * qy q + qz q * qz q + qw q * qw q in
  if Rlt_dec len_sq (1 / 10 ^ 10) then Quaternion_identity
  else
    let inv_len := 1 / sqrt len_sq in
    mkQuat (qx q * inv_len) (qy q * inv_len) (qz q * inv_len) (qw q * inv_len).

End coord_convert.

(** * gla_parser.cc: decompression of one 14-byte pool record *)
Module GlaDecompress.

(** [struct CompressedBone { uint8_t data[14]; }] *)
Record CompressedBone := mkCompressedBone { data : list byte }.

Definition byte_at (d : list byte) (i : nat) : Z := Z.of_N (Byte.to_N (nth i d x00)).

(** [read_u16 = p[0] | (p[1] << 8)] *)
Definition read_u16 (d : list byte) (i : nat) : Z :=
  Z.lor (byte_at d i) (Z.shiftl (byte_at d (S i)) 8).

(** [GlaParser::DecompressBone], returning (translation, rotation). *)
Definition DecompressBone (comp : CompressedBone) : Float3 * Quaternion :=
  let d := data comp in
  let qw_raw := read_u16 d 0 in
  let qx_raw := read_u16 d 2 in
  let qy_raw := read_u16 d 4 in
  let qz_raw := read_u16 d 6 in
  let qx0 := IZR qx_raw / 16383 - 2 in
  let qy0 := IZR qy_raw / 16383 - 2 in
  let qz0 := IZR qz_raw / 16383 - 2 in
  let qw0 := IZR qw_raw / 16383 - 2 in
  let len_sq := qx0 * qx0 + qy0 * qy0 + qz0 * qz0 + qw0 * qw0 in
  let rotation :=
    if Rgt_dec len_sq (1 / 10 ^ 10) then
      let inv_len := 1 / sqrt len_sq in
      mkQuat (qx0 * inv_len) (qy0 * inv_len) (qz0 * inv_len) (qw0 * inv_len)
    else mkQuat 0 0 0 1 in
  let tx_raw := read_u16 d 8 in
  let ty_raw := read_u16 d 10 in
  let tz_raw := read_u16 d 12 in
  let translation :=
    mkFloat3 (IZR tx_raw / 64 - 512) (IZR ty_raw / 64 - 512) (IZR tz_raw / 64 - 512) in
  (translation, rotation).

(** The decompression as the format description states it: seven
    little-endian unsigned 16-bit values [w x y z tx ty tz]; quaternion
    components [raw/16383 - 2] scaled to unit length (identity when the
    squared length is not above [1e-10]); translation [raw/64 - 512]. *)
Definition le_u16 (d : list byte) (i : nat) : Z := byte_at d i + 256 * byte_at d (S i).

Definition quat_unit_or_identity (q : Quaternion) : Quaternion :=
  let n2 := qx q ^ 2 + qy q ^ 2 + qz q ^ 2 + qw q ^ 2 in
  if Rgt_dec n2 (1 / 10 ^ 10) then
    mkQuat (qx q / sqrt n2) (qy q / sqrt n2) (qz q / sqrt n2) (qw q / sqrt n2)
  else Quaternion_identity.

Definition decompress_spec (d : list byte) : Float3 * Quaternion :=
  let qc i := IZR (le_u16 d i) / 16383 - 2 in
  let tc i := IZR (le_u16 d i) / 64 - 512 in
  (mkFloat3 (tc 8%nat) (tc 10%nat) (tc 12%nat),
   quat_unit_or_identity (mkQuat (qc 2%nat) (qc 4%nat) (qc 6%nat) (qc 0%nat))).

End GlaDecompress.

(** * gla_format.h / gla_parser.cc: loading and per-bone lookup *)
Module GlaParser.

(** [size_t] arithmetic (64-bit, unsigned, wrapping). *)
Definition size_t (z : Z) : Z := (z mod 2 ^ 64)%Z.

(** [('A' << 24) + ('G' << 16) + ('L' << 8) + '2'] *)
Definition GLA_IDENT : Z := (65 * 2 ^ 24 + 71 * 2 ^ 16 + 76 * 2 ^ 8 + 50)%Z.
Definition GLA_VERSION : Z := 6%Z.
Definition MAX_BONE_NAME : Z := 64%Z.
(** [sizeof(GlaHeader)] and [sizeof(GlaSkelBoneHeader)] under [pack(1)]. *)
Definition sizeof_GlaHeader : Z := 100%Z.
Definition sizeof_GlaSkelBoneHeader : Z := 172%Z.

(** The integer fields of [GlaHeader] (name and scale are not used by the
    loading logic). *)
Record GlaHeader := mkGlaHeader {
  ident : Z; version : Z; num_frames : Z; ofs_frames : Z; num_bones : Z;
  ofs_comp_bone_pool : Z; ofs_skel : Z; ofs_end : Z }.

Definition byte_Z (file : list byte) (pos : Z) : Z :=
  Z.of_N (Byte.to_N (nth (Z.to_nat pos) file x00)).

Definition read_u32 (file : list byte) (pos : Z) : Z :=
  (byte_Z file pos + 2 ^ 8 * byte_Z file (pos + 1) + 2 ^ 16 * byte_Z file (pos + 2)
   + 2 ^ 24 * byte_Z file (pos + 3))%Z.

(** [int32_t] read little-endian (two's complement). *)
Definition read_i32 (file : list byte) (pos : Z) : Z :=
  let u := read_u32 file pos in if Z_lt_dec u (2 ^ 31) then u else (u - 2 ^ 32)%Z.

(** [memcpy(&m_header, data, sizeof(GlaHeader))] *)
Definition decode_header (file : list byte) : GlaHeader :=
  mkGlaHeader (read_u32 file 0) (read_u32 file 4) (read_i32 file 76) (read_i32 file 80)
    (read_i32 file 84) (read_i32 file 88) (read_i32 file 92) (read_i32 file 96).

Definition file_size (file : list byte) : Z := Z.of_nat (List.length file).

(** [GlaParser::ParseHeader] *)
Definition ParseHeader (file : list byte) : option GlaHeader :=
  if Z_lt_dec (file_size file) sizeof_GlaHeader then None
  else
    let h := decode_header file in
    if negb (Z.eqb (ident h) GLA_IDENT) then None
    else if negb (Z.eqb (version h) GLA_VERSION) then None
    else Some h.

(** [GlaParser::ParseSkeleton]: returns the bone records' offsets in the
    file. [m_bones.reserve(num_bones)] throws for a negative count. *)
Definition ParseSkeleton (file : list byte) (h : GlaHeader) : option (list Z) :=
  if orb (Z.leb (ofs_skel h) 0) (Z.leb (file_size file) (ofs_skel h)) then None
  else if Z_lt_dec (num_bones h) 0 then None
  else
    let offset_table_size := size_t (num_bones h * 4) in
    if Z_lt_dec (file_size file) (sizeof_GlaHeader + offset_table_size) then None
    else
      fold_left
        (fun acc i =>
           match acc with
           | None => None
           | Some bones =>
               let bone_offset := read_i32 file (sizeof_GlaHeader + 4 * Z.of_nat i) in
               let bone_data := (sizeof_GlaHeader + bone_offset)%Z in
               if Z_lt_dec (file_size file) (bone_data + sizeof_GlaSkelBoneHeader)
               then None else Some (bones ++ [bone_data])
           end)
        (seq 0 (Z.to_nat (num_bones h))) (Some []).

(** The parser's state after [Load]. *)
Record GlaParserState := mkGlaParserState {
  m_file_data : list byte; m_header : GlaHeader; m_bones : list Z;
  m_frame_data : Z; m_frame_data_size : Z; m_bone_pool : Z; m_bone_pool_size : Z }.

(** [GlaParser::LoadFrameIndices]: (m_frame_data, m_frame_data_size). *)
Definition LoadFrameIndices (file : list byte) (h : GlaHeader) : option (Z * Z) :=
  if orb (Z.leb (ofs_frames h) 0) (Z.leb (file_size file) (ofs_frames h)) then None
  else
    let frame_entry_size := size_t (num_bones h * 3) in
    let frame_data_size := size_t (size_t (num_frames h) * frame_entry_size) in
    if Z_lt_dec (file_size file) (ofs_frames h + frame_data_size) then None
    else Some (ofs_frames h, frame_data_size).

(** [GlaParser::LoadCompressedBonePool]: (m_bone_pool, m_bone_pool_size). *)
Definition LoadCompressedBonePool (file : list byte) (h : GlaHeader) : option (Z * Z) :=
  if orb (Z.leb (ofs_comp_bone_pool h) 0) (Z.leb (file_size file) (ofs_comp_bone_pool h))
  then None
  else
    let pool_end := if Z_lt_dec 0 (ofs_skel h) then size_t (ofs_skel h) else file_size file in
    Some (ofs_comp_bone_pool h, size_t (pool_end - size_t (ofs_comp_bone_pool h))).

(** [GlaParser::Load] on the bytes of the file. *)
Definition Load (file : list byte) : option GlaParserState :=
  match ParseHeader file with
  | None => None
  | Some h =>
      match ParseSkeleton file h with
      | None => None
      | Some bones =>
          match LoadFrameIndices file h with
          | None => None
          | Some (fd, fds) =>
              match LoadCompressedBonePool file h with
              | None => None
              | Some (bp, bps) => Some (mkGlaParserState file h bones fd fds bp bps)
              end
          end
      end
  end.

(** Reading [n] bytes of [m_file_data] at [pos]; [None] is a read outside
    the buffer. *)
Definition read_bytes (file : list byte) (pos n : Z) : option (list byte) :=
  if andb (Z.leb 0 pos) (Z.leb (pos + n) (file_size file))
  then Some (firstn (Z.to_nat n) (skipn (Z.to_nat pos) file)) else None.

(** [GlaParser::ReadFrameIndex]; [None] is a read outside the buffer. *)
Definition ReadFrameIndex (st : GlaParserState) (frame bone : Z) : option Z :=
  let h := m_header st in
  if orb (orb (Z.ltb frame 0) (Z.leb (num_frames h) frame))
         (orb (Z.ltb bone 0) (Z.leb (num_bones h) bone)) then Some 0%Z
  else
    let offset := size_t (size_t (size_t frame * size_t (num_bones h)) * 3
                          + size_t bone * 3) in
    if Z_lt_dec (m_frame_data_size st) (size_t (offset + 3)) then Some 0%Z
    else
      match read_bytes (m_file_data st) (m_frame_data st + offset) 3 with
      | Some [p0; p1; p2] =>
          Some (Z.lor (Z.of_N (Byte.to_N p0))
                  (Z.lor (Z.shiftl (Z.of_N (Byte.to_N p1)) 8)
                         (Z.shiftl (Z.of_N (Byte.to_N p2)) 16)))
      | _ => None
      end.

(** Outcome of [GetBoneTransform]: [false], [true] with the decompressed
    transform, or a read outside [m_file_data]. *)
Inductive GetResult :=
| GR_false
| GR_true (t : Float3) (r : Quaternion)
| GR_out_of_bounds.

(** [GlaParser::GetBoneTransform] *)
Definition GetBoneTransform (st : GlaParserState) (frame_index bone_index : Z) : GetResult :=
  let h := m_header st in
  if orb (orb (Z.ltb frame_index 0) (Z.leb (num_frames h) frame_index))
         (orb (Z.ltb bone_index 0) (Z.leb (num_bones h) bone_index)) then GR_false
  else
    match ReadFrameIndex st frame_index bone_index with
    | None => GR_out_of_bounds
    | Some pool_index =>
        let pool_offset := size_t (pool_index * 14) in
        if Z_lt_dec (m_bone_pool_size st) (size_t (pool_offset + 14)) then GR_false
        else
          match read_bytes (m_file_data st) (m_bone_pool st + pool_offset) 14 with
          | None => GR_out_of_bounds
          | Some comp =>
              let '(t, r) := GlaDecompress.DecompressBone (GlaDecompress.mkCompressedBone comp) in
              GR_true t r
          end
    end.

End GlaParser.

(** * ozz offline types used by both tools *)
Module Ozz.

(** [ozz::animation::Skeleton]: joint names, parent indices (-1 for a root)
    and rest-pose local transforms, one per joint. *)
Record Skeleton := mkSkeleton {
  joint_names : list string; joint_parents : list Z; joint_rest_poses : list Transform }.

Definition num_joints (sk : Skeleton) : nat := List.length (joint_names sk).

Definition joint_parent (sk : Skeleton) (j : nat) : Z := nth j (joint_parents sk) (-1)%Z.

Definition rest_pose (sk : Skeleton) (j : nat) : Transform :=
  nth j (joint_rest_poses sk) (mkTransform Float3_zero Quaternion_identity Float3_one).

(** [RawAnimation::TranslationKey], [RotationKey], [ScaleKey]. *)
Record Key (A : Type) := mkKey { key_time : R; key_value : A }.
Arguments mkKey {A}. Arguments key_time {A}. Arguments key_value {A}.

(** [RawAnimation::JointTrack] *)
Record JointTrack := mkJointTrack {
  translations : list (Key Float3); rotations : list (Key Quaternion);
  scales : list (Key Float3) }.

Definition empty_track : JointTrack := mkJointTrack [] [] [].

(** Three [push_back]s of keys at the same time. *)
Definition push_keys (tr : JointTrack) (time : R) (t : Float3) (r : Quaternion) (s : Float3)
  : JointTrack :=
  mkJointTrack (translations tr ++ [mkKey time t]) (rotations tr ++ [mkKey time r])
               (scales tr ++ [mkKey time s]).

(** [RawAnimation]; [Validate] is ozz's own check, a parameter below. *)
Record RawAnimation := mkRawAnimation {
  anim_name : string; duration : R; tracks : list JointTrack }.

End Ozz.

(** * gla2ozz.cc: [GlaImporter::Import] of one animation clip *)
Module GlaImporter.
Import Ozz.

(** [gla::AnimationClip] (animation_cfg_parser.h). *)
Record AnimationClip := mkAnimationClip {
  clip_name : string; start_frame : Z; frame_count : Z; loop_frame : Z; fps : R }.

(** Modelled from the spec: the clip-line filter of
    [AnimationCfgParser::ParseLine] (animation_cfg_parser.cc is not among
    the sources): "a clip line with a non-positive frame count is rejected
    silently", so every clip [FindClip] returns has a positive frame count. *)
Definition clip_accepted (c : AnimationClip) : Prop := (0 < frame_count c)%Z.

(** What [Import] uses of the loaded [GlaParser]: the frame count, the bone
    names, and [ComputeAnimatedWorldTransform(frame, bone)] (JKA space). *)
Record GlaSource := mkGlaSource {
  gla_num_frames : Z; gla_bone_names : list string;
  ComputeAnimatedWorldTransform : Z -> Z -> Float3 * Quaternion }.

(** [joint_map[joint_names[i]] = i] for [i] ascending: the last joint of a
    name wins. *)
Definition joint_map_find (names : list string) (n : string) : option nat :=
  fold_left (fun acc i => if String.eqb (nth i names ""%string) n then Some i else acc)
    (seq 0 (List.length names)) None.

(** [ozz_to_gla[joint_map[bone_name]] = b] for [b] ascending. *)
Definition ozz_to_gla_find (sk : Skeleton) (src : GlaSource) (j : nat) : option nat :=
  fold_left
    (fun acc b =>
       match joint_map_find (joint_names sk) (nth b (gla_bone_names src) ""%string) with
       | Some j' => if Nat.eqb j' j then Some b else acc
       | None => acc
       end)
    (seq 0 (List.length (gla_bone_names src))) None.

(** Phase 1 of a frame: world transform of every ozz joint, converted to
    Y-up; joints with no GLA bone get zero position and identity rotation. *)
Definition phase1 (sk : Skeleton) (src : GlaSource) (gla_frame : Z)
  : list (Float3 * Quaternion) :=
  map (fun j =>
         match ozz_to_gla_find sk src j with
         | None => (Float3_zero, Quaternion_identity)
         | Some gla_bone =>
             let '(world_pos_jka, world_rot_jka) :=
               ComputeAnimatedWorldTransform src gla_frame (Z.of_nat gla_bone) in
             (coord_convert.ConvertPosition3 world_pos_jka,
              coord_convert.NormalizeQuaternion (coord_convert.ConvertQuaternion4 world_rot_jka))
         end)
      (seq 0 (num_joints sk)).

Definition world_default : Float3 * Quaternion := (Float3_zero, Quaternion_identity).

(** Phase 2 of a frame for joint [j]: parent-local transform from the ozz
    parent's and the joint's world transforms. *)
Definition local_transform (sk : Skeleton) (worlds : list (Float3 * Quaternion)) (j : nat)
  : Float3 * Quaternion :=
  let ozz_parent := joint_parent sk j in
  let '(pos_j, rot_j) := nth j worlds world_default in
  if Z_lt_dec ozz_parent 0 then (pos_j, rot_j)
  else
    let '(pos_p, rot_p) := nth (Z.to_nat ozz_parent) worlds world_default in
    let parent_rot_inv := mkQuat (- qx rot_p) (- qy rot_p) (- qz rot_p) (qw rot_p) in
    let rot := coord_convert.NormalizeQuaternion (qmul parent_rot_inv rot_j) in
    let offset := mkFloat3 (f3x pos_j - f3x pos_p) (f3y pos_j - f3y pos_p)
                           (f3z pos_j - f3z pos_p) in
    let offset_q := mkQuat (f3x offset) (f3y offset) (f3z offset) 0 in
    let temp := qmul parent_rot_inv offset_q in
    let parent_conj := mkQuat (- qx parent_rot_inv) (- qy parent_rot_inv)
                              (- qz parent_rot_inv) (qw parent_rot_inv) in
    let result := qmul temp parent_conj in
    (mkFloat3 (qx result) (qy result) (qz result), rot).

(** The per-joint body of phase 2: mark animated, push three keys. *)
Definition phase2_joint (sk : Skeleton) (worlds : list (Float3 * Quaternion)) (time : R)
  (st : list JointTrack * list bool) (j : nat) : list JointTrack * list bool :=
  let '(trs, animated) := st in
  let '(trans, rot) := local_transform sk worlds j in
  (upd trs j (push_keys (nth j trs empty_track) time trans rot Float3_one),
   upd animated j true).

(** The frame loop [for (f = 0; f < frame_count; ++f)], given how phase 1
    computes the world transforms of a GLA frame. *)
Definition frame_loop (sk : Skeleton) (phase : Z -> list (Float3 * Quaternion))
  (c : AnimationClip) (frame_duration : R) (st : list JointTrack * list bool)
  : list JointTrack * list bool :=
  fold_left
    (fun st f =>
       let gla_frame := (start_frame c + Z.of_nat f)%Z in
       let time := INR f * frame_duration in
       let worlds := phase gla_frame in
       fold_left (phase2_joint sk worlds time) (seq 0 (num_joints sk)) st)
    (seq 0 (Z.to_nat (frame_count c))) st.

(** The track a joint has after [n] frames: one key per frame. *)
Definition track_after (sk : Skeleton) (phase : Z -> list (Float3 * Quaternion)) (c : AnimationClip)
  (fd : R) (n : nat) (j : nat) : JointTrack :=
  mkJointTrack
    (map (fun f => mkKey (INR f * fd)
                     (fst (local_transform sk (phase (start_frame c + Z.of_nat f)%Z) j)))
         (seq 0 n))
    (map (fun f => mkKey (INR f * fd)
                     (snd (local_transform sk (phase (start_frame c + Z.of_nat f)%Z) j)))
         (seq 0 n))
    (map (fun f => mkKey (INR f * fd) Float3_one) (seq 0 n)).

(** Post-processing of one track: unanimated or empty lists get one key at
    time 0 (zero / identity / one), and a single key is duplicated at
    [duration] when [duration > 0]. *)
Definition fill_keys {A} (animated : bool) (dflt : A) (d : R) (ks : list (Key A)) : list (Key A) :=
  let ks := if orb (negb animated) (Nat.eqb (List.length ks) 0) then [mkKey 0 dflt] else ks in
  if andb (Nat.eqb (List.length ks) 1) (if Rgt_dec d 0 then true else false)
  then ks ++ [mkKey d (key_value (nth 0 ks (mkKey 0 dflt)))] else ks.

Definition fill_track (d : R) (animated : bool) (tr : JointTrack) : JointTrack :=
  mkJointTrack (fill_keys animated Float3_zero d (translations tr))
               (fill_keys animated Quaternion_identity d (rotations tr))
               (fill_keys animated Float3_one d (scales tr)).

(** [fps = clip->fps > 0 ? clip->fps : _sampling_rate; if (fps <= 0) fps = 20]. *)
Definition resolve_fps (c : AnimationClip) (sampling_rate : R) : R :=
  let f := if Rgt_dec (fps c) 0 then fps c else sampling_rate in
  if Rle_dec f 0 then 20 else f.

Definition clip_duration (c : AnimationClip) (frame_duration : R) : R :=
  if Z_lt_dec 1 (frame_count c) then IZR (frame_count c - 1) * frame_duration
  else frame_duration.

(** The body of [Import] after the clip lookup, given phase 1 (the debug
    printing of the source is left out: it writes to the log only).
    [_animation] is a fresh [RawAnimation]. *)
Definition ImportWith (phase : Skeleton -> GlaSource -> Z -> list (Float3 * Quaternion))
  (src : GlaSource) (clip : option AnimationClip) (anim_name : string) (sk : Skeleton)
  (sampling_rate : R) (Validate : RawAnimation -> bool) : option RawAnimation :=
  match clip with
  | None => None
  | Some c =>
      if Z_lt_dec (gla_num_frames src) (start_frame c + frame_count c) then None
      else
        let fps := resolve_fps c sampling_rate in
        let frame_duration := 1 / fps in
        let d := clip_duration c frame_duration in
        let nj := num_joints sk in
        let '(trs, animated) :=
          frame_loop sk (phase sk src) c frame_duration
                     (repeat empty_track nj, repeat false nj) in
        let trs := map (fun i => fill_track d (nth i animated false) (nth i trs empty_track))
                       (seq 0 nj) in
        let a := mkRawAnimation anim_name d trs in
        if Validate a then Some a else None
  end.

(** [GlaImporter::Import] of tools/gla2ozz/gla2ozz.cc. *)
Definition Import := ImportWith phase1.

(** The copy of [GlaImporter::Import] kept in src/shaders/skinned_fragment.glsl,
    which adds "Phase 1.5": subtract joint 0's converted world position from
    every joint's converted world position. *)
Definition phase1_recentred (sk : Skeleton) (src : GlaSource) (gla_frame : Z)
  : list (Float3 * Quaternion) :=
  let worlds := phase1 sk src gla_frame in
  let root_offset := fst (nth 0 worlds world_default) in
  map (fun '(p, r) =>
         (mkFloat3 (f3x p - f3x root_offset) (f3y p - f3y root_offset)
                   (f3z p - f3z root_offset), r)) worlds.

Definition Import_recentred := ImportWith phase1_recentred.

End GlaImporter.

(** * tools/ozz-retarget: bone_mapper.h *)
Module BoneMapper.

(** [retarget::BoneMapping]. *)
Record BoneMapping := mkBoneMapping {
  target_bone : string; source_bones : list string; combine_rotations : bool;
  correction : Quaternion; has_correction : bool }.

Definition is_unmapped (m : BoneMapping) : bool :=
  match source_bones m with [] => true | _ :: _ => false end.

Definition is_combined (m : BoneMapping) : bool :=
  Nat.ltb 1 (List.length (source_bones m)).

(** The two lookups of [BoneMapper] that [main] uses. bone_mapper.cc is not
    among the sources: they are arbitrary functions here, so what is proved
    holds for every configuration and every source skeleton. *)
Record Lookups := mkLookups {
  GetMapping : string -> option BoneMapping;
  GetSourceBoneIndex : string -> Z }.

End BoneMapper.

(** * tools/ozz-retarget: [main] after loading, up to [Validate] *)
Module RetargetMain.
Import Ozz.

Definition QuatInverse (q : Quaternion) : Quaternion :=
  mkQuat (- qx q) (- qy q) (- qz q) (qw q).

Definition QuatMul (a b : Quaternion) : Quaternion := qmul a b.

(** [if (len > 0.0001f) return q / len; return identity] *)
Definition QuatNormalize (q : Quaternion) : Quaternion :=
  let len := sqrt (qx q * qx q + qy q * qy q + qz q * qz q + qw q * qw q) in
  if Rgt_dec len (1 / 10000) then mkQuat (qx q / len) (qy q / len) (qz q / len) (qw q / len)
  else Quaternion_identity.

Definition WorldToLocal (world parent_world : Quaternion) : Quaternion :=
  QuatMul (QuatInverse parent_world) world.

(** [BoneMappingInfo], with its default member initialisers. *)
Record BoneMappingInfo := mkBoneMappingInfo {
  is_mapped : bool; source_indices : list Z; combine_rotations : bool;
  correction : Quaternion; has_correction : bool }.

Definition default_info : BoneMappingInfo :=
  mkBoneMappingInfo false [] false Quaternion_identity false.

(** [for (src_name : source_bones) { idx = GetSourceBoneIndex(src_name);
    if (idx >= 0) source_indices.push_back(idx); }] *)
Definition resolve_sources (mapper : BoneMapper.Lookups) (names : list string) : list Z :=
  fold_left (fun acc src_name =>
               let idx := BoneMapper.GetSourceBoneIndex mapper src_name in
               if Z_le_dec 0 idx then acc ++ [idx] else acc)
            names [].

Definition mapping_info (mapper : BoneMapper.Lookups) (target_name : string) : BoneMappingInfo :=
  match BoneMapper.GetMapping mapper target_name with
  | Some m =>
      if negb (BoneMapper.is_unmapped m) then
        mkBoneMappingInfo true (resolve_sources mapper (BoneMapper.source_bones m))
          (BoneMapper.is_combined m) (BoneMapper.correction m) (BoneMapper.has_correction m)
      else default_info
  | None => default_info
  end.

Definition mapping_infos (mapper : BoneMapper.Lookups) (tgt : Skeleton) : list BoneMappingInfo :=
  map (fun t => mapping_info mapper (nth t (joint_names tgt) ""%string)) (seq 0 (num_joints tgt)).

(** [ExtractTranslation/Rotation/Scale(v[i / 4], i % 4)]: lane [i % 4] of
    SoA block [i / 4] is joint [i]'s transform; the vectors are modelled
    unpacked, one [Transform] per joint. *)
Definition identity_transform : Transform :=
  mkTransform Float3_zero Quaternion_identity Float3_one.

Definition local_at (locals : list Transform) (i : nat) : Transform :=
  nth i locals identity_transform.

(** World rotations of all source joints, in index order, written into
    [source_world_rotations]. *)
Definition source_worlds (src : Skeleton) (locals : list Transform)
  (source_world_rotations : list Quaternion) : list Quaternion :=
  fold_left (fun swr i =>
               let local := rotation (local_at locals i) in
               let parent := joint_parent src i in
               if Z_lt_dec parent 0 then upd swr i local
               else upd swr i (QuatMul (nth (Z.to_nat parent) swr Quaternion_identity) local))
            (seq 0 (num_joints src)) source_world_rotations.

Definition target_parent_world (tgt : Skeleton) (target_world_rotations : list Quaternion)
  (target_idx : nat) : Quaternion :=
  let target_parent := joint_parent tgt target_idx in
  if Z_lt_dec target_parent 0 then Quaternion_identity
  else nth (Z.to_nat target_parent) target_world_rotations Quaternion_identity.

(** The mapped branch before the correction: source world rotation and
    translation. The empty case is not reached ([target_pose] checks
    [source_indices.empty()] first). *)
Definition source_world_and_translation (src : Skeleton) (info : BoneMappingInfo)
  (locals : list Transform) (swr : list Quaternion) : Quaternion * Float3 :=
  match source_indices info with
  | [] => (Quaternion_identity, Float3_zero)
  | first_src :: others =>
      if andb (combine_rotations info) (Nat.ltb 1 (List.length (source_indices info))) then
        let combined_local :=
          fold_left (fun acc s => QuatMul acc (rotation (local_at locals (Z.to_nat s))))
                    others (rotation (local_at locals (Z.to_nat first_src))) in
        let first_parent := joint_parent src (Z.to_nat first_src) in
        let parent_world :=
          if Z_lt_dec first_parent 0 then Quaternion_identity
          else nth (Z.to_nat first_parent) swr Quaternion_identity in
        (QuatMul parent_world combined_local, translation (local_at locals (Z.to_nat first_src)))
      else
        (nth (Z.to_nat first_src) swr Quaternion_identity,
         translation (local_at locals (Z.to_nat first_src)))
  end.

Definition apply_correction (info : BoneMappingInfo) (source_world : Quaternion) : Quaternion :=
  if has_correction info then QuatNormalize (QuatMul source_world (correction info))
  else source_world.

(** Translation, local rotation and scale [main] keys for one target joint. *)
Definition target_pose (tgt src : Skeleton) (info : BoneMappingInfo) (locals : list Transform)
  (swr : list Quaternion) (target_parent_world : Quaternion) (target_idx : nat) : Transform :=
  if orb (negb (is_mapped info))
         (match source_indices info with [] => true | _ :: _ => false end) then
    let rest := rest_pose tgt target_idx in
    mkTransform (translation rest) (rotation rest) (scale rest)
  else
    let '(source_world, trans) := source_world_and_translation src info locals swr in
    let source_world := apply_correction info source_world in
    mkTransform trans (QuatNormalize (WorldToLocal source_world target_parent_world)) Float3_one.

(** The body of the loop over target joints. *)
Definition target_step (tgt src : Skeleton) (infos : list BoneMappingInfo)
  (locals : list Transform) (swr : list Quaternion) (time : R)
  (st : list JointTrack * list Quaternion) (target_idx : nat)
  : list JointTrack * list Quaternion :=
  let '(trs, twr) := st in
  let tpw := target_parent_world tgt twr target_idx in
  let pose := target_pose tgt src (nth target_idx infos default_info) locals swr tpw target_idx in
  (upd trs target_idx
       (push_keys (nth target_idx trs empty_track) time
                  (translation pose) (rotation pose) (scale pose)),
   upd twr target_idx (QuatMul tpw (rotation pose))).

(** Tracks, [source_world_rotations], [target_world_rotations]. *)
Definition RetargetState : Type := (list JointTrack * list Quaternion * list Quaternion)%type.

(** One iteration of the frame loop; [Sample ratio] is the [SamplingJob]
    on the source animation ([None] when [Run] fails). *)
Definition frame_step (src tgt : Skeleton) (infos : list BoneMappingInfo)
  (Sample : R -> option (list Transform)) (duration time_step : R)
  (st : RetargetState) (frame : nat) : option RetargetState :=
  let '(trs, swr, twr) := st in
  let time := INR frame * time_step in
  match Sample (time / duration) with
  | None => None
  | Some locals =>
      let swr := source_worlds src locals swr in
      let '(trs, twr) :=
        fold_left (target_step tgt src infos locals swr time) (seq 0 (num_joints tgt)) (trs, twr) in
      Some (trs, swr, twr)
  end.

Fixpoint frames_loop (src tgt : Skeleton) (infos : list BoneMappingInfo)
  (Sample : R -> option (list Transform)) (duration time_step : R)
  (frames : list nat) (st : RetargetState) : option RetargetState :=
  match frames with
  | [] => Some st
  | f :: fs =>
      match frame_step src tgt infos Sample duration time_step st f with
      | None => None
      | Some st' => frames_loop src tgt infos Sample duration time_step fs st'
      end
  end.

(** [static_cast<int>] of a float: truncation toward zero. *)
Definition trunc (x : R) : Z :=
  if Rle_dec 0 x then Int_part x else (- Int_part (- x))%Z.

Definition num_keyframes (duration sample_rate : R) : Z := (trunc (duration * sample_rate) + 1)%Z.

Definition time_step (duration : R) (nk : Z) : R := duration / IZR (Z.max 1 (nk - 1)).

(** [main] from the keyframe count to [Validate]: [None] for [return 1].
    [q0] is the initial content of the two rotation vectors (ozz's
    [Quaternion()] leaves it uninitialised). *)
Definition Retarget (mapper : BoneMapper.Lookups) (src tgt : Skeleton) (duration sample_rate : R)
  (Sample : R -> option (list Transform)) (q0 : Quaternion) (Validate : RawAnimation -> bool)
  : option RawAnimation :=
  let nk := num_keyframes duration sample_rate in
  let ts := time_step duration nk in
  let infos := mapping_infos mapper tgt in
  match frames_loop src tgt infos Sample duration ts (seq 0 (Z.to_nat nk))
          (repeat empty_track (num_joints tgt), repeat q0 (num_joints src),
           repeat q0 (num_joints tgt)) with
  | None => None
  | Some (trs, _, _) =>
      let a := mkRawAnimation "retargeted" duration trs in
      if Validate a then Some a else None
  end.

End RetargetMain.

(** * gla_parser.cc: quaternion and matrix helpers (anonymous namespace) *)
Module GlaMath.

Definition QuaternionConjugate (q : Quaternion) : Quaternion :=
  mkQuat (- qx q) (- qy q) (- qz q) (qw q).

Definition QuaternionMultiply (a b : Quaternion) : Quaternion := qmul a b.

(** [len_sq < 1e-10f] returns identity, else scale by [1/sqrt(len_sq)]. *)
Definition QuaternionNormalize (q : Quaternion) : Quaternion :=
  let len_sq := qx q * qx q + qy q * qy q + qz q * qz q + qw q * qw q in
  if Rlt_dec len_sq (1 / 10 ^ 10) then Quaternion_identity
  else
    let inv_len := 1 / sqrt len_sq in
    mkQuat (qx q * inv_len) (qy q * inv_len) (qz q * inv_len) (qw q * inv_len).

(** [q * (v, 0) * conjugate(q)], vector part. *)
Definition RotateVectorByQuaternion (q : Quaternion) (v : Float3) : Float3 :=
  let qv := mkQuat (f3x v) (f3y v) (f3z v) 0 in
  let q_conj := QuaternionConjugate q in
  let temp := QuaternionMultiply q qv in
  let result := QuaternionMultiply temp q_conj in
  mkFloat3 (qx result) (qy result) (qz result).

(** [float[3][4]] and [GlaMatrix34]: row-major, [mij] is [matrix[i][j]]. *)
Record Matrix34 := mkMatrix34 {
  m00 : R; m01 : R; m02 : R; m03 : R;
  m10 : R; m11 : R; m12 : R; m13 : R;
  m20 : R; m21 : R; m22 : R; m23 : R }.

(** [m[i][j]] for [i < 3], [j < 4]. *)
Definition mat_at (m : Matrix34) (i j : nat) : R :=
  match i, j with
  | 0, 0 => m00 m | 0, 1 => m01 m | 0, 2 => m02 m | 0, 3 => m03 m
  | 1, 0 => m10 m | 1, 1 => m11 m | 1, 2 => m12 m | 1, 3 => m13 m
  | 2, 0 => m20 m | 2, 1 => m21 m | 2, 2 => m22 m | 2, 3 => m23 m
  | _, _ => 0
  end.

(** The matrix whose entry [[i][j]] is [f i j]: the result of a loop
    writing [out[i][j]] for [i < 3], [j < 4]. *)
Definition mat_of (f : nat -> nat -> R) : Matrix34 :=
  mkMatrix34 (f 0%nat 0%nat) (f 0%nat 1%nat) (f 0%nat 2%nat) (f 0%nat 3%nat)
             (f 1%nat 0%nat) (f 1%nat 1%nat) (f 1%nat 2%nat) (f 1%nat 3%nat)
             (f 2%nat 0%nat) (f 2%nat 1%nat) (f 2%nat 2%nat) (f 2%nat 3%nat).

Definition BuildMatrix34 (q : Quaternion) (t : Float3) : Matrix34 :=
  let fTx := 2 * qx q in
  let fTy := 2 * qy q in
  let fTz := 2 * qz q in
  let fTwx := fTx * qw q in
  let fTwy := fTy * qw q in
  let fTwz := fTz * qw q in
  let fTxx := fTx * qx q in
  let fTxy := fTy * qx q in
  let fTxz := fTz * qx q in
  let fTyy := fTy * qy q in
  let fTyz := fTz * qy q in
  let fTzz := fTz * qz q in
  mkMatrix34 (1 - (fTyy + fTzz)) (fTxy - fTwz) (fTxz + fTwy) (f3x t)
             (fTxy + fTwz) (1 - (fTxx + fTzz)) (fTyz - fTwx) (f3y t)
             (fTxz - fTwy) (fTyz + fTwx) (1 - (fTxx + fTyy)) (f3z t).

(** [c = a * b] with the implicit bottom row [0 0 0 1]. *)
Definition MultiplyMatrix34 (a b : Matrix34) : Matrix34 :=
  mat_of (fun i j =>
    match j with
    | 0 => mat_at a i 0 * mat_at b 0 0 + mat_at a i 1 * mat_at b 1 0 + mat_at a i 2 * mat_at b 2 0
    | 1 => mat_at a i 0 * mat_at b 0 1 + mat_at a i 1 * mat_at b 1 1 + mat_at a i 2 * mat_at b 2 1
    | 2 => mat_at a i 0 * mat_at b 0 2 + mat_at a i 1 * mat_at b 1 2 + mat_at a i 2 * mat_at b 2 2
    | _ => mat_at a i 0 * mat_at b 0 3 + mat_at a i 1 * mat_at b 1 3 + mat_at a i 2 * mat_at b 2 3
           + mat_at a i 3
    end).

Definition SetIdentityMatrix34 : Matrix34 :=
  mkMatrix34 1 0 0 0
             0 1 0 0
             0 0 1 0.

(** [x > y] as a [bool], for the [&&] of [DecomposeMatrix]. *)
Definition Rgtb (x y : R) : bool := if Rgt_dec x y then true else false.

(** [GlaParser::DecomposeMatrix]: (translation, rotation, scale). *)
Definition DecomposeMatrix (matrix : Matrix34) : Float3 * Quaternion * Float3 :=
  let translation := mkFloat3 (m03 matrix) (m13 matrix) (m23 matrix) in
  let sx := sqrt (m00 matrix * m00 matrix + m10 matrix * m10 matrix + m20 matrix * m20 matrix) in
  let sy := sqrt (m01 matrix * m01 matrix + m11 matrix * m11 matrix + m21 matrix * m21 matrix) in
  let sz := sqrt (m02 matrix * m02 matrix + m12 matrix * m12 matrix + m22 matrix * m22 matrix) in
  let scale := mkFloat3 sx sy sz in
  let '(r00, r10, r20) :=
    if Rgt_dec sx (1 / 10 ^ 6) then (m00 matrix / sx, m10 matrix / sx, m20 matrix / sx)
    else (1, 0, 0) in
  let '(r01, r11, r21) :=
    if Rgt_dec sy (1 / 10 ^ 6) then (m01 matrix / sy, m11 matrix / sy, m21 matrix / sy)
    else (0, 1, 0) in
  let '(r02, r12, r22) :=
    if Rgt_dec sz (1 / 10 ^ 6) then (m02 matrix / sz, m12 matrix / sz, m22 matrix / sz)
    else (0, 0, 1) in
  let trace := r00 + r11 + r22 in
  let rotation :=
    if Rgt_dec trace 0 then
      let s := (1 / 2) / sqrt (trace + 1) in
      mkQuat ((r21 - r12) * s) ((r02 - r20) * s) ((r10 - r01) * s) ((1 / 4) / s)
    else if andb (Rgtb r00 r11) (Rgtb r00 r22) then
      let s := 2 * sqrt (1 + r00 - r11 - r22) in
      mkQuat ((1 / 4) * s) ((r01 + r10) / s) ((r02 + r20) / s) ((r21 - r12) / s)
    else if Rgtb r11 r22 then
      let s := 2 * sqrt (1 + r11 - r00 - r22) in
      mkQuat ((r01 + r10) / s) ((1 / 4) * s) ((r12 + r21) / s) ((r02 - r20) / s)
    else
      let s := 2 * sqrt (1 + r22 - r00 - r11) in
      mkQuat ((r02 + r20) / s) ((r12 + r21) / s) ((1 / 4) * s) ((r10 - r01) / s) in
  (translation, rotation, scale).

(** [GlaParser::DecomposeMatrix34]: the same extraction as
    [DecomposeMatrix] (the body is a copy of it), with the quaternion passed
    through [QuaternionNormalize] at the end. *)
Definition DecomposeMatrix34 (m : Matrix34) : Float3 * Quaternion * Float3 :=
  let '(translation, rotation, scale) := DecomposeMatrix m in
  (translation, QuaternionNormalize rotation, scale).

(** [GlaParser::InvertMatrix] *)
Definition InvertMatrix (m : Matrix34) : Matrix34 :=
  let sx := sqrt (m00 m * m00 m + m10 m * m10 m + m20 m * m20 m) in
  let sy := sqrt (m01 m * m01 m + m11 m * m11 m + m21 m * m21 m) in
  let sz := sqrt (m02 m * m02 m + m12 m * m12 m + m22 m * m22 m) in
  let sx := if Rlt_dec sx (1 / 10 ^ 6) then 1 else sx in
  let sy := if Rlt_dec sy (1 / 10 ^ 6) then 1 else sy in
  let sz := if Rlt_dec sz (1 / 10 ^ 6) then 1 else sz in
  let inv_sx_sq := 1 / (sx * sx) in
  let inv_sy_sq := 1 / (sy * sy) in
  let inv_sz_sq := 1 / (sz * sz) in
  let r00 := m00 m * inv_sx_sq in let r01 := m10 m * inv_sx_sq in let r02 := m20 m * inv_sx_sq in
  let r10 := m01 m * inv_sy_sq in let r11 := m11 m * inv_sy_sq in let r12 := m21 m * inv_sy_sq in
  let r20 := m02 m * inv_sz_sq in let r21 := m12 m * inv_sz_sq in let r22 := m22 m * inv_sz_sq in
  let tx := m03 m in let ty := m13 m in let tz := m23 m in
  mkMatrix34 r00 r01 r02 (- (r00 * tx + r01 * ty + r02 * tz))
             r10 r11 r12 (- (r10 * tx + r11 * ty + r12 * tz))
             r20 r21 r22 (- (r20 * tx + r21 * ty + r22 * tz)).

(** [GlaParser::MultiplyMatrices]: [sum] over [k < 3], plus [a[i][3]] when
    [j == 3]. *)
Definition MultiplyMatrices (a b : Matrix34) : Matrix34 :=
  mat_of (fun i j =>
    let sum := fold_left (fun sum k => sum + mat_at a i k * mat_at b k j) (seq 0 3) 0 in
    if Nat.eqb j 3 then sum + mat_at a i 3 else sum).

End GlaMath.

(** * gla_parser.cc: member functions over the parsed bones [m_bones] *)
Module GlaBones.
Import GlaMath.

(** [gla::GlaBone] (gla_format.h). *)
Record GlaBone := mkGlaBone {
  name : string; flags : Z; parent : Z; base_pose : Matrix34; base_pose_inv : Matrix34;
  num_children : Z }.

(** What [m_bones[i]] gives for an index past the end (a read outside the
    vector in C++; the theorems below only use indices in range). *)
Definition default_bone : GlaBone :=
  mkGlaBone ""%string 0 (-1) SetIdentityMatrix34 SetIdentityMatrix34 0.

Definition bone_at (bones : list GlaBone) (i : Z) : GlaBone := nth (Z.to_nat i) bones default_bone.

Definition out_of_range (bones : list GlaBone) (bone_index : Z) : bool :=
  orb (Z.ltb bone_index 0) (Z.leb (Z.of_nat (List.length bones)) bone_index).

(** [GlaParser::GetBindPoseTransform]; [None] is [return false]. *)
Definition GetBindPoseTransform (bones : list GlaBone) (bone_index : Z)
  : option (Float3 * Quaternion * Float3) :=
  if out_of_range bones bone_index then None
  else Some (DecomposeMatrix (base_pose (bone_at bones bone_index))).

(** [GlaParser::GetLocalBindPoseTransform] (its logging left out);
    [None] is [return false]. *)
Definition GetLocalBindPoseTransform (bones : list GlaBone) (bone_index : Z)
  : option (Float3 * Quaternion * Float3) :=
  if out_of_range bones bone_index then None
  else
    let bone := bone_at bones bone_index in
    if Z_lt_dec (parent bone) 0 then Some (DecomposeMatrix (base_pose bone))
    else
      let parent_bone := bone_at bones (parent bone) in
      let '(parent_trans, parent_rot, _) := DecomposeMatrix (base_pose parent_bone) in
      let '(child_trans, child_rot, _) := DecomposeMatrix (base_pose bone) in
      let parent_rot_inv := QuaternionConjugate parent_rot in
      let rotation := QuaternionNormalize (QuaternionMultiply parent_rot_inv child_rot) in
      let world_offset := mkFloat3 (f3x child_trans - f3x parent_trans)
                                   (f3y child_trans - f3y parent_trans)
                                   (f3z child_trans - f3z parent_trans) in
      let translation := RotateVectorByQuaternion parent_rot_inv world_offset in
      Some (translation, rotation, Float3_one).

(** [GlaParser::GetWorldPosition]. *)
Definition GetWorldPosition (bones : list GlaBone) (bone_index : Z) : Float3 :=
  if out_of_range bones bone_index then mkFloat3 0 0 0
  else let m := base_pose (bone_at bones bone_index) in mkFloat3 (m03 m) (m13 m) (m23 m).

(** [GlaParser::ComputeBoneMatrix] (its debug printing left out).
    [anim b] is what [GetBoneTransform(frame_index, b, ...)] wrote for the
    frame (its [bool] result is not looked at). The recursion follows
    [bone.parent]; [fuel] bounds its depth and [None] means it did not
    end within [fuel] calls. *)
Fixpoint ComputeBoneMatrix (fuel : nat) (bones : list GlaBone)
  (anim : Z -> Float3 * Quaternion) (bone_index : Z) : option Matrix34 :=
  match fuel with
  | O => None
  | S fuel' =>
      let bone := bone_at bones bone_index in
      let '(anim_trans, anim_rot) := anim bone_index in
      let local_anim := BuildMatrix34 anim_rot anim_trans in
      if Z_lt_dec (parent bone) 0 then Some local_anim
      else
        match ComputeBoneMatrix fuel' bones anim (parent bone) with
        | None => None
        | Some parent_matrix => Some (MultiplyMatrix34 parent_matrix local_anim)
        end
  end.

(** [GlaParser::ComputeAnimatedWorldTransform]: (world_pos, world_rot). *)
Definition ComputeAnimatedWorldTransform (fuel : nat) (bones : list GlaBone)
  (anim : Z -> Float3 * Quaternion) (bone_index : Z) : option (Float3 * Quaternion) :=
  match ComputeBoneMatrix fuel bones anim bone_index with
  | None => None
  | Some bone_matrix =>
      let world_matrix := MultiplyMatrix34 bone_matrix (base_pose (bone_at bones bone_index)) in
      let world_pos := mkFloat3 (m03 world_matrix) (m13 world_matrix) (m23 world_matrix) in
      let '(_, world_rot, _) := DecomposeMatrix34 world_matrix in
      Some (world_pos, world_rot)
  end.

(** [GlaParser::GetAnimTransformInParentSpace]: [Some None] is
    [return false], [Some (Some (translation, rotation))] is [return true]
    with the outputs written; [None] means a [ComputeBoneMatrix] recursion
    did not end within [fuel] calls. *)
Definition GetAnimTransformInParentSpace (fuel : nat) (bones : list GlaBone)
  (anim : Z -> Float3 * Quaternion) (bone_index : Z) : option (option (Float3 * Quaternion)) :=
  if out_of_range bones bone_index then Some None
  else
    let bone := bone_at bones bone_index in
    match ComputeAnimatedWorldTransform fuel bones anim bone_index with
    | None => None
    | Some (child_world_pos, child_world_rot) =>
        if Z_lt_dec (parent bone) 0 then Some (Some (child_world_pos, child_world_rot))
        else
          match ComputeAnimatedWorldTransform fuel bones anim (parent bone) with
          | None => None
          | Some (parent_world_pos, parent_world_rot) =>
              let parent_rot_inv := QuaternionConjugate parent_world_rot in
              let rotation := QuaternionNormalize (QuaternionMultiply parent_rot_inv child_world_rot) in
              let offset := mkFloat3 (f3x child_world_pos - f3x parent_world_pos)
                                     (f3y child_world_pos - f3y parent_world_pos)
                                     (f3z child_world_pos - f3z parent_world_pos) in
              let translation := RotateVectorByQuaternion parent_rot_inv offset in
              Some (Some (translation, rotation))
          end
    end.

End GlaBones.

(** * ozz-retarget: helpers of the anonymous namespace not used by [main] *)
Module RetargetHelpers.
Import Ozz RetargetMain.

(** [RetargetRotation] (its debug printing left out). *)
Definition RetargetRotation (source_rotation source_rest target_rest : Quaternion) : Quaternion :=
  let source_delta := QuatMul source_rotation (QuatInverse source_rest) in
  QuatNormalize (QuatMul source_delta target_rest).

(** The loop [while (current >= 0) { world = QuatMul(local, world);
    current = parents[current]; }]; [fuel] bounds the number of iterations
    and [None] means the loop did not end within [fuel] iterations. *)
Fixpoint world_rotation_loop (fuel : nat) (locals : list Transform) (skeleton : Skeleton)
  (current : Z) (world : Quaternion) : option Quaternion :=
  if Z_lt_dec current 0 then Some world
  else
    match fuel with
    | O => None
    | S fuel' =>
        let local := rotation (local_at locals (Z.to_nat current)) in
        world_rotation_loop fuel' locals skeleton (joint_parent skeleton (Z.to_nat current))
          (QuatMul local world)
    end.

(** [ComputeWorldRotation(locals, skeleton, joint_idx)] *)
Definition ComputeWorldRotation (fuel : nat) (locals : list Transform) (skeleton : Skeleton)
  (joint_idx : Z) : option Quaternion :=
  world_rotation_loop fuel locals skeleton joint_idx Quaternion_identity.

End RetargetHelpers.

(** ** Squared norms, sums and the affine map of a 3x4 matrix, used to
    state properties of the helpers above *)
Definition qnorm2 (q : Quaternion) : R :=
  qx q * qx q + qy q * qy q + qz q * qz q + qw q * qw q.

Definition vnorm2 (v : Float3) : R := f3x v * f3x v + f3y v * f3y v + f3z v * f3z v.

Definition f3add (a b : Float3) : Float3 :=
  mkFloat3 (f3x a + f3x b) (f3y a + f3y b) (f3z a + f3z b).

Definition transform_point (m : GlaMath.Matrix34) (v : Float3) : Float3 :=
  mkFloat3 (GlaMath.m00 m * f3x v + GlaMath.m01 m * f3y v + GlaMath.m02 m * f3z v + GlaMath.m03 m)
           (GlaMath.m10 m * f3x v + GlaMath.m11 m * f3y v + GlaMath.m12 m * f3z v + GlaMath.m13 m)
           (GlaMath.m20 m * f3x v + GlaMath.m21 m * f3y v + GlaMath.m22 m * f3z v + GlaMath.m23 m).

(** ** The identity test record of gla_tests.cc: raw shorts w=49149,
    x=y=z=32766, translations 32768, stored little-endian. *)
Definition identity_record : GlaDecompress.CompressedBone :=
  GlaDecompress.mkCompressedBone
    [xfd; xbf; xfe; x7f; xfe; x7f; xfe; x7f; x00; x80; x00; x80; x00; x80].

(** ** A GLA file laid out as the JKA format lays it out: the skeleton
    (offset table and bone records) right after the 100-byte header, then
    the frame-index table, then the compressed pool. One frame, one bone;
    the frame-index entry names pool record 5 while the pool holds one
    record. *)
Definition byte_of_Z (z : Z) : byte :=
  match Byte.of_N (Z.to_N (z mod 256)) with Some b => b | None => x00 end.

Definition le32 (z : Z) : list byte :=
  map (fun k => byte_of_Z (z / 2 ^ (8 * Z.of_nat k))) (seq 0 4).

Definition skel_after_header_file : list byte :=
  (* header: ident "2LGA", version 6, name[64], scale *)
  le32 GlaParser.GLA_IDENT ++ le32 6 ++ repeat x00 64 ++ le32 0
  (* num_frames, ofs_frames, num_bones, ofs_comp_bone_pool, ofs_skel, ofs_end *)
  ++ le32 1 ++ le32 276 ++ le32 1 ++ le32 280 ++ le32 100 ++ le32 294
  (* bone offset table at 100: bone 0 at 100 + 4 *)
  ++ le32 4
  (* bone 0: name, flags, parent = -1, base_pose, base_pose_inv, num_children *)
  ++ repeat x00 64 ++ le32 0 ++ le32 (-1) ++ repeat x00 96 ++ le32 0
  (* frame-index table at 276: entry 5, one byte of padding *)
  ++ [x05; x00; x00; x00]
  (* compressed pool at 280: one 14-byte record *)
  ++ [xfd; xbf; xfe; x7f; xfe; x7f; xfe; x7f; x00; x80; x00; x80; x00; x80].


(** ** A one-joint skeleton whose joint "model_root" is matched by the GLA
    bone of the same name, placed at (1, 0, 0) (JKA space) in every frame;
    a two-frame clip at 20 fps. *)
Definition sk_root : Ozz.Skeleton :=
  Ozz.mkSkeleton ["model_root"%string] [(-1)%Z]
    [mkTransform Float3_zero Quaternion_identity Float3_one].

Definition src_root : GlaImporter.GlaSource :=
  GlaImporter.mkGlaSource 2 ["model_root"%string]
    (fun _ _ => (mkFloat3 1 0 0, Quaternion_identity)).

Definition clip2 : GlaImporter.AnimationClip :=
  GlaImporter.mkAnimationClip "walk" 0 2 0 20.

(** ** A one-joint skeleton whose joint "root" has rest translation
    (1, 0, 0), and a GLA source with the single bone "pelvis". *)
Definition sk_unmatched : Ozz.Skeleton :=
  Ozz.mkSkeleton ["root"%string] [(-1)%Z]
    [mkTransform (mkFloat3 1 0 0) Quaternion_identity Float3_one].

Definition src_pelvis : GlaImporter.GlaSource :=
  GlaImporter.mkGlaSource 2 ["pelvis"%string]
    (fun _ _ => (mkFloat3 5 6 7, Quaternion_identity)).

(** ** The duration of an imported clip in the words of the specification:
    fps is the clip's if positive, else the sampling rate if positive, else
    20; the duration is [(frame_count - 1) / fps], or [1 / fps] for a
    one-frame clip. *)
Definition fps_spec (c : GlaImporter.AnimationClip) (sampling_rate : R) : R :=
  if Rgt_dec (GlaImporter.fps c) 0 then GlaImporter.fps c
  else if Rgt_dec sampling_rate 0 then sampling_rate else 20.

Definition duration_spec (c : GlaImporter.AnimationClip) (sampling_rate : R) : R :=
  let frame_duration := 1 / fps_spec c sampling_rate in
  if Z.eqb (GlaImporter.frame_count c) 1 then frame_duration
  else IZR (GlaImporter.frame_count c - 1) * frame_duration.

(** ** Reading a retargeted track: the three keys of frame [f], and the
    number of keys. *)
Definition keys_at (tr : Ozz.JointTrack) (f : nat) (time : R) (pose : Transform) : Prop :=
  nth f (Ozz.translations tr) (Ozz.mkKey 0 Float3_zero) = Ozz.mkKey time (translation pose)
  /\ nth f (Ozz.rotations tr) (Ozz.mkKey 0 Quaternion_identity) = Ozz.mkKey time (rotation pose)
  /\ nth f (Ozz.scales tr) (Ozz.mkKey 0 Float3_one) = Ozz.mkKey time (scale pose).

Definition track_len (tr : Ozz.JointTrack) (n : nat) : Prop :=
  List.length (Ozz.translations tr) = n /\ List.length (Ozz.rotations tr) = n
  /\ List.length (Ozz.scales tr) = n.

(** The local transforms of frame [f] read back from an animation's
    tracks: key [f] of each kind, joint by joint. *)
Definition frame_pose (a : Ozz.RawAnimation) (f : nat) : list Transform :=
  map (fun tr => mkTransform (Ozz.key_value (nth f (Ozz.translations tr) (Ozz.mkKey 0 Float3_zero)))
                             (Ozz.key_value (nth f (Ozz.rotations tr) (Ozz.mkKey 0 Quaternion_identity)))
                             (Ozz.key_value (nth f (Ozz.scales tr) (Ozz.mkKey 0 Float3_one))))
      (Ozz.tracks a).

(** ** A three-joint source chain hips -> spine -> chest, a two-joint target
    Hips -> Spine, a source animation whose every sample is the same pose,
    and two configurations: one mapping Hips to hips and Spine to the
    combination spine + chest, one mapping nothing. *)
Definition src_chain : Ozz.Skeleton :=
  Ozz.mkSkeleton ["hips"; "spine"; "chest"]%string [(-1)%Z; 0%Z; 1%Z]
    (repeat RetargetMain.identity_transform 3).

Definition tgt_chain : Ozz.Skeleton :=
  Ozz.mkSkeleton ["Hips"; "Spine"]%string [(-1)%Z; 0%Z]
    [mkTransform (mkFloat3 0 1 0) Quaternion_identity Float3_one;
     mkTransform (mkFloat3 0 0 2) (mkQuat 0 0 1 0) Float3_one].

Definition sample_const : R -> option (list Transform) :=
  fun _ => Some [mkTransform (mkFloat3 0 3 0) (mkQuat 1 0 0 0) Float3_one;
                 mkTransform (mkFloat3 0 0 4) (mkQuat 0 1 0 0) Float3_one;
                 mkTransform (mkFloat3 5 0 0) (mkQuat 0 0 1 0) Float3_one].

Definition chain_index (name : string) : Z :=
  if String.eqb name "hips" then 0%Z
  else if String.eqb name "spine" then 1%Z
  else if String.eqb name "chest" then 2%Z else (-1)%Z.

Definition mapper_chain : BoneMapper.Lookups :=
  BoneMapper.mkLookups
    (fun target =>
       if String.eqb target "Hips" then
         Some (BoneMapper.mkBoneMapping "Hips" ["hips"%string] false Quaternion_identity false)
       else if String.eqb target "Spine" then
         Some (BoneMapper.mkBoneMapping "Spine" ["spine"; "chest"]%string true Quaternion_identity false)
       else None)
    chain_index.

Definition mapper_none : BoneMapper.Lookups :=
  BoneMapper.mkLookups (fun _ => None) chain_index.

(** ** A GLA file whose compressed pool ends where [ofs_skel] points: the
    header, the bone offset table and one bone record, the frame-index table
    at 276, one 14-byte pool record at 280, [ofs_skel = 294] and one byte
    after it. One frame, one bone; the frame-index entry names pool
    record 0. *)
Definition pool_before_skel_file : list byte :=
  le32 GlaParser.GLA_IDENT ++ le32 6 ++ repeat x00 64 ++ le32 0
  ++ le32 1 ++ le32 276 ++ le32 1 ++ le32 280 ++ le32 294 ++ le32 295
  ++ le32 4
  ++ repeat x00 64 ++ le32 0 ++ le32 (-1) ++ repeat x00 96 ++ le32 0
  ++ [x00; x00; x00; x00]
  ++ [xfd; xbf; xfe; x7f; xfe; x7f; xfe; x7f; x00; x80; x00; x80; x00; x80]
  ++ [x00].

(** ** Two bones: a root turned half a turn about z and placed at
    (1, 2, 3), and its child turned half a turn about x and placed at
    (0, 4, 0) (bind poses in model space). *)
Definition two_bones : list GlaBones.GlaBone :=
  [GlaBones.mkGlaBone "root"%string 0%Z (-1)%Z
     (GlaMath.BuildMatrix34 (mkQuat 0 0 1 0) (mkFloat3 1 2 3)) GlaMath.SetIdentityMatrix34 1%Z;
   GlaBones.mkGlaBone "child"%string 0%Z 0%Z
     (GlaMath.BuildMatrix34 (mkQuat 1 0 0 0) (mkFloat3 0 4 0)) GlaMath.SetIdentityMatrix34 0%Z].

(** ** A 3x4 matrix scaling the axes by 2, 3 and 4 and translating by
    (1, 2, 3). *)
Definition scale_matrix : GlaMath.Matrix34 := GlaMath.mkMatrix34 2 0 0 1 0 3 0 2 0 0 4 3.

(** The state [GlaParser] has before [Load]. *)
Definition empty_state : GlaParser.GlaParserState :=
  GlaParser.mkGlaParserState [] (GlaParser.mkGlaHeader 0 0 0 0 0 0 0 0) [] 0 0 0 0.


(* ================================================================= *)
(** * Proofs *)

Lemma byte_at_range (d : list byte) (i : nat) :
  (0 <= GlaDecompress.byte_at d i < 256)%Z.
Proof.
  unfold GlaDecompress.byte_at.
  pose proof (Byte.to_N_bounded (nth i d x00)). lia.
Qed.

Lemma lor_shiftl8 (a b : Z) :
  (0 <= a < 256)%Z -> (0 <= b)%Z -> Z.lor a (Z.shiftl b 8) = (a + 256 * b)%Z.
Proof.
  intros Ha Hb.
  assert (Hl : Z.land a (Z.shiftl b 8) = 0%Z).
  { apply Z.bits_inj'. intros n Hn. rewrite Z.land_spec, Z.bits_0.
    destruct (Z.lt_ge_cases n 8) as [Hlt | Hge].
    - rewrite (Z.shiftl_spec_low b 8 n Hlt). apply Bool.andb_false_r.
    - assert (Hn0 : (0 <= n)%Z) by lia.
      rewrite (proj2 (Z.testbit_false a n Hn0)); [reflexivity |].
      rewrite Z.div_small; [reflexivity |].
      split; [lia |].
      apply Z.lt_le_trans with (2 ^ 8)%Z; [lia |].
      apply Z.pow_le_mono_r; lia. }
  rewrite <- (Z.lxor_lor _ _ Hl), <- (Z.add_nocarry_lxor _ _ Hl).
  rewrite Z.shiftl_mul_pow2 by lia. lia.
Qed.

Lemma read_u16_le (d : list byte) (i : nat) :
  GlaDecompress.read_u16 d i = GlaDecompress.le_u16 d i.
Proof.
  unfold GlaDecompress.read_u16, GlaDecompress.le_u16.
  apply lor_shiftl8; [apply byte_at_range | apply byte_at_range].
Qed.

Lemma quat_unit_or_identity_norm (q : Quaternion) :
  let r := GlaDecompress.quat_unit_or_identity q in
  qx r ^ 2 + qy r ^ 2 + qz r ^ 2 + qw r ^ 2 = 1.
Proof.
  unfold GlaDecompress.quat_unit_or_identity.
  set (n2 := qx q ^ 2 + qy q ^ 2 + qz q ^ 2 + qw q ^ 2).
  destruct (Rgt_dec n2 (1 / 10 ^ 10)) as [Hgt | Hle]; cbn [qx qy qz qw];
    [| unfold Quaternion_identity; cbn [qx qy qz qw]; ring].
  assert (Hpos : 0 < n2) by (apply Rlt_trans with (1 / 10 ^ 10); [| exact Hgt];
                              apply Rdiv_lt_0_compat; [lra | apply pow_lt; lra]).
  assert (Hs : sqrt n2 * sqrt n2 = n2) by (apply sqrt_sqrt; lra).
  assert (Hs0 : sqrt n2 <> 0) by (apply Rgt_not_eq, sqrt_lt_R0; exact Hpos).
  replace ((qx q / sqrt n2) ^ 2 + (qy q / sqrt n2) ^ 2 + (qz q / sqrt n2) ^ 2
           + (qw q / sqrt n2) ^ 2) with (n2 / (sqrt n2 * sqrt n2))
    by (unfold n2; field; exact Hs0).
  rewrite Hs. field. lra.
Qed.

(** C3: [DecompressBone] reads the record as seven little-endian unsigned
    shorts, quaternion first and scalar first ([w x y z]), then translation
    ([x y z]); quaternion components are [raw/16383 - 2] renormalised to unit
    length (identity when the squared length is not above [1e-10]),
    translation components are [raw/64 - 512]; the result always has unit
    length, and the raw shorts w=49149, x=y=z=32766, t=32768 give the
    identity quaternion and the zero translation. *)
Theorem DecompressBone_formula :
  (forall comp : GlaDecompress.CompressedBone,
      GlaDecompress.DecompressBone comp
        = GlaDecompress.decompress_spec (GlaDecompress.data comp)
      /\ (let r := snd (GlaDecompress.DecompressBone comp) in
          qx r ^ 2 + qy r ^ 2 + qz r ^ 2 + qw r ^ 2 = 1))
  /\ GlaDecompress.DecompressBone identity_record
       = (Float3_zero, Quaternion_identity).
Proof.
  assert (Heq : forall comp, GlaDecompress.DecompressBone comp
                  = GlaDecompress.decompress_spec (GlaDecompress.data comp)).
  { intros comp.
    unfold GlaDecompress.DecompressBone, GlaDecompress.decompress_spec.
    rewrite !read_u16_le.
    cbv beta zeta delta [GlaDecompress.quat_unit_or_identity] iota.
    cbn [qx qy qz qw].
    set (a := IZR (GlaDecompress.le_u16 (GlaDecompress.data comp) 2) / 16383 - 2).
    set (b := IZR (GlaDecompress.le_u16 (GlaDecompress.data comp) 4) / 16383 - 2).
    set (c := IZR (GlaDecompress.le_u16 (GlaDecompress.data comp) 6) / 16383 - 2).
    set (e := IZR (GlaDecompress.le_u16 (GlaDecompress.data comp) 0) / 16383 - 2).
    assert (E : a ^ 2 + b ^ 2 + c ^ 2 + e ^ 2 = a * a + b * b + c * c + e * e) by ring.
    rewrite E.
    destruct (Rgt_dec (a * a + b * b + c * c + e * e) (1 / 10 ^ 10)); [| reflexivity].
    f_equal. f_equal; unfold Rdiv; ring. }
  split.
  - intros comp. split; [apply Heq |].
    rewrite Heq. unfold GlaDecompress.decompress_spec; simpl snd.
    apply quat_unit_or_identity_norm.
  - unfold GlaDecompress.DecompressBone.
    replace (GlaDecompress.read_u16 (GlaDecompress.data identity_record) 0) with 49149%Z
      by reflexivity.
    replace (GlaDecompress.read_u16 (GlaDecompress.data identity_record) 2) with 32766%Z
      by reflexivity.
    replace (GlaDecompress.read_u16 (GlaDecompress.data identity_record) 4) with 32766%Z
      by reflexivity.
    replace (GlaDecompress.read_u16 (GlaDecompress.data identity_record) 6) with 32766%Z
      by reflexivity.
    replace (GlaDecompress.read_u16 (GlaDecompress.data identity_record) 8) with 32768%Z
      by reflexivity.
    replace (GlaDecompress.read_u16 (GlaDecompress.data identity_record) 10) with 32768%Z
      by reflexivity.
    replace (GlaDecompress.read_u16 (GlaDecompress.data identity_record) 12) with 32768%Z
      by reflexivity.
    replace (IZR 32766 / 16383 - 2) with 0 by lra.
    replace (IZR 49149 / 16383 - 2) with 1 by lra.
    replace (IZR 32768 / 64 - 512) with 0 by lra.
    replace (0 * 0 + 0 * 0 + 0 * 0 + 1 * 1) with 1 by ring.
    destruct (Rgt_dec 1 (1 / 10 ^ 10)) as [_ | Hn].
    + rewrite sqrt_1. unfold Float3_zero, Quaternion_identity. f_equal; f_equal; field.
    + exfalso. apply Hn. unfold Rgt. apply Rmult_lt_reg_r with (10 ^ 10);
        [apply pow_lt; lra |]. unfold Rdiv. rewrite Rmult_assoc, Rinv_l;
        [simpl; lra | apply pow_nonzero; lra].
Qed.

(** C9: [ConvertPosition(x, y, z) = (x*s, z*s, -y*s)] with the fixed scale
    [s = SCALE_FACTOR = 0.0254], and [ConvertQuaternion(x, y, z, w) =
    (x, z, -y, w)] with no scale; in particular [ConvertPosition(1, 2, 3) =
    (s, 3*s, -2*s)]. *)
Theorem ConvertPosition_ConvertQuaternion_formula :
  (forall x y z : R,
      coord_convert.ConvertPosition x y z
      = mkFloat3 (x * coord_convert.SCALE_FACTOR) (z * coord_convert.SCALE_FACTOR)
                 (- (y * coord_convert.SCALE_FACTOR)))
  /\ (forall x y z w : R, coord_convert.ConvertQuaternion x y z w = mkQuat x z (- y) w)
  /\ coord_convert.ConvertPosition 1 2 3
     = mkFloat3 (1 * coord_convert.SCALE_FACTOR) (3 * coord_convert.SCALE_FACTOR)
                (- (2 * coord_convert.SCALE_FACTOR)).
Proof.
  split; [| split].
  - intros x y z. unfold coord_convert.ConvertPosition. f_equal. ring.
  - intros x y z w. reflexivity.
  - unfold coord_convert.ConvertPosition. f_equal. ring.
Qed.

(** C8 (defect): on a file that [Load]s successfully, whose skeleton
    section precedes the compressed pool (as the JKA layout has it),
    [m_bone_pool_size = ofs_skel - ofs_comp_bone_pool] wraps around in
    [size_t], so the pool bounds check of [GetBoneTransform] passes for a
    pool index past the end of the file and the call reads outside
    [m_file_data] instead of returning [false]. *)
Theorem GetBoneTransform_pool_size_wraps :
  match GlaParser.Load skel_after_header_file with
  | Some st =>
      GlaParser.m_bone_pool_size st = (2 ^ 64 - 180)%Z
      /\ GlaParser.ReadFrameIndex st 0 0 = Some 5%Z
      /\ GlaParser.GetBoneTransform st 0 0 = GlaParser.GR_out_of_bounds
  | None => False
  end.
Proof. vm_compute. repeat split. Qed.

(** ** Vectors updated by index *)

Lemma length_upd {A} (l : list A) i x : List.length (upd l i x) = List.length l.
Proof. revert i; induction l as [| h t IH]; intros [| i]; simpl; auto. Qed.

Lemma nth_upd_same {A} (l : list A) i x d : (i < List.length l)%nat -> nth i (upd l i x) d = x.
Proof.
  revert i; induction l as [| h t IH]; intros [| i] Hi; simpl in *; try lia; auto.
  apply IH; lia.
Qed.

Lemma nth_upd_other {A} (l : list A) i j x d : i <> j -> nth j (upd l i x) d = nth j l d.
Proof.
  revert i j; induction l as [| h t IH]; intros [| i] [| j] Hij; simpl; auto; try lia.
Qed.


(** ** The frame loop of [Import] *)

Section FrameLoop.
Import Ozz GlaImporter.

Variable sk : Skeleton.

(** The inner loop over joints updates exactly the joints it visits. *)
Lemma phase2_fold_spec worlds time (l : list nat) (st : list JointTrack * list bool) :
  NoDup l -> (forall j, In j l -> j < List.length (fst st))%nat ->
  List.length (fst st) = List.length (snd st) ->
  let st' := fold_left (phase2_joint sk worlds time) l st in
  List.length (fst st') = List.length (fst st) /\ List.length (snd st') = List.length (snd st) /\
  forall j,
    (In j l -> nth j (fst st') empty_track
               = push_keys (nth j (fst st) empty_track) time
                   (fst (local_transform sk worlds j)) (snd (local_transform sk worlds j))
                   Float3_one
               /\ nth j (snd st') false = true) /\
    (~ In j l -> nth j (fst st') empty_track = nth j (fst st) empty_track
                 /\ nth j (snd st') false = nth j (snd st) false).
Proof.
  revert st. induction l as [| a l IH]; intros [trs an] Hnd Hlt Hlen; simpl.
  - split; [reflexivity | split; [reflexivity |]]. intros j; split; [intros [] | auto].
  - inversion Hnd as [| ? ? Hna Hnd']; subst.
    unfold phase2_joint at 2.
    destruct (local_transform sk worlds a) as [trans rot] eqn:Eloc.
    simpl in Hlt, Hlen.
    assert (Ha : (a < List.length trs)%nat) by (apply Hlt; left; reflexivity).
    set (st1 := (upd trs a (push_keys (nth a trs empty_track) time trans rot Float3_one),
                 upd an a true)).
    assert (P2 : forall j, In j l -> (j < List.length (fst st1))%nat).
    { intros j Hj. simpl. rewrite !length_upd. apply Hlt. right. exact Hj. }
    assert (P3 : List.length (fst st1) = List.length (snd st1)).
    { simpl. rewrite !length_upd. exact Hlen. }
    destruct (IH st1 Hnd' P2 P3) as [L1 [L2 H]].
    simpl in L1, L2. rewrite (length_upd trs) in L1. rewrite (length_upd an) in L2.
    split; [exact L1 | split; [exact L2 |]].
    intros j. destruct (H j) as [Hin Hout]. split.
    + intros [<- | Hj].
      * destruct (Hout Hna) as [E1 E2]. rewrite E1, E2. simpl.
        rewrite Eloc. simpl. split; apply nth_upd_same; lia.
      * assert (Haj : a <> j) by (intros ->; contradiction).
        destruct (Hin Hj) as [E1 E2]. split; [| exact E2].
        rewrite E1. simpl. rewrite nth_upd_other by exact Haj. reflexivity.
    + intros Hn. destruct (Hout (fun Hj => Hn (or_intror Hj))) as [E1 E2].
      rewrite E1, E2. simpl. split; apply nth_upd_other; intros ->; apply Hn; left; auto.
Qed.

Lemma frame_loop_spec phase c fd :
  let nj := num_joints sk in
  let n := Z.to_nat (frame_count c) in
  let st' := frame_loop sk phase c fd (repeat empty_track nj, repeat false nj) in
  List.length (fst st') = nj /\ List.length (snd st') = nj /\
  forall j, (j < nj)%nat ->
    nth j (fst st') empty_track = track_after sk phase c fd n j /\
    nth j (snd st') false = Nat.ltb 0 n.
Proof.
  cbv zeta. unfold frame_loop. generalize (Z.to_nat (frame_count c)) as n.
  induction n as [| n IH].
  - simpl. rewrite !repeat_length. split; [auto | split; [auto |]].
    intros j Hj. rewrite !nth_repeat. split; reflexivity.
  - rewrite seq_S, fold_left_app, Nat.add_0_l. cbn [fold_left].
    destruct IH as [L1 [L2 H]].
    set (st := fold_left _ (seq 0 n) _) in *.
    destruct (phase2_fold_spec (phase (start_frame c + Z.of_nat n)%Z)
                (INR n * fd) (seq 0 (num_joints sk)) st (seq_NoDup _ 0)) as [M1 [M2 H']].
    { intros j Hj. apply in_seq in Hj. lia. }
    { lia. }
    split; [lia | split; [lia |]].
    intros j Hj. assert (Hin : In j (seq 0 (num_joints sk))) by (apply in_seq; lia).
    destruct (proj1 (H' j) Hin) as [E1 E2]. rewrite E1, E2.
    destruct (H j Hj) as [F1 _]. rewrite F1.
    split; [| reflexivity].
    unfold track_after, push_keys. rewrite !seq_S, !map_app. reflexivity.
Qed.

End FrameLoop.

(** ** Shape of an imported animation *)

Section ImportShape.
Import Ozz GlaImporter.

Lemma ImportWith_spec phase src c nm sk sr V a :
  ImportWith phase src (Some c) nm sk sr V = Some a ->
  let fd := 1 / resolve_fps c sr in
  let n := Z.to_nat (frame_count c) in
  (start_frame c + frame_count c <= gla_num_frames src)%Z
  /\ duration a = clip_duration c fd
  /\ tracks a = map (fun i => fill_track (duration a) (Nat.ltb 0 n)
                                (track_after sk (phase sk src) c fd n i))
                    (seq 0 (num_joints sk)).
Proof.
  unfold ImportWith. destruct Z_lt_dec as [_ | Hge]; [discriminate |].
  pose proof (frame_loop_spec sk (phase sk src) c (1 / resolve_fps c sr)) as S.
  cbv zeta in S |- *.
  destruct (frame_loop sk (phase sk src) c (1 / resolve_fps c sr) _) as [trs an].
  destruct S as [L1 [L2 H]].
  destruct (V _); [| discriminate]. intros Hs. injection Hs as <-. simpl.
  split; [lia | split; [reflexivity |]].
  apply map_ext_in. intros i Hi. apply in_seq in Hi.
  destruct (H i) as [F1 F2]; [lia |]. simpl in F1, F2. rewrite F1, F2. reflexivity.
Qed.

Lemma resolve_fps_pos c sr : 0 < resolve_fps c sr.
Proof. unfold resolve_fps. destruct (Rgt_dec (fps c) 0); destruct Rle_dec; lra. Qed.

Lemma clip_duration_pos c fd : 0 < fd -> 0 < clip_duration c fd.
Proof.
  intros Hfd. unfold clip_duration. destruct Z_lt_dec; [| exact Hfd].
  apply Rmult_lt_0_compat; [apply IZR_lt; lia | exact Hfd].
Qed.

Lemma fill_keys_last {A} animated (dflt : A) d ks :
  0 < d ->
  (animated = true -> (2 <= List.length ks)%nat -> key_time (last ks (mkKey 0 dflt)) = d) ->
  (2 <= List.length (fill_keys animated dflt d ks))%nat
  /\ key_time (last (fill_keys animated dflt d ks) (mkKey 0 dflt)) = d.
Proof.
  intros Hd Hk. unfold fill_keys.
  destruct (Rgt_dec d 0) as [_ | Hn]; [| lra]. rewrite Bool.andb_true_r.
  destruct animated; simpl.
  - destruct ks as [| k0 [| k1 ks]]; simpl; try (split; [lia | reflexivity]).
    split; [lia |]. apply Hk; simpl; auto; lia.
  - split; [lia | reflexivity].
Qed.

Lemma fill_keys_keep {A} (dflt : A) d ks :
  (2 <= List.length ks)%nat -> fill_keys true dflt d ks = ks.
Proof. intros H. destruct ks as [| k0 [| k1 ks]]; simpl in *; try lia. reflexivity. Qed.

Lemma last_map_seq {A} (v : nat -> A) fd n dflt :
  (1 <= n)%nat ->
  last (map (fun f => mkKey (INR f * fd) (v f)) (seq 0 n)) dflt
  = mkKey (INR (n - 1) * fd) (v (n - 1)%nat).
Proof.
  intros Hn. destruct n as [| n]; [lia |].
  rewrite seq_S, map_app. cbn [map]. rewrite last_last. simpl. rewrite Nat.sub_0_r. reflexivity.
Qed.

Lemma track_keys_last {A} (v : nat -> A) c fd dflt :
  let n := Z.to_nat (frame_count c) in
  (2 <= List.length (map (fun f => mkKey (INR f * fd) (v f)) (seq 0 n)))%nat ->
  key_time (last (map (fun f => mkKey (INR f * fd) (v f)) (seq 0 n)) dflt)
  = clip_duration c fd.
Proof.
  intros n Hn. rewrite length_map, length_seq in Hn.
  rewrite last_map_seq by lia. simpl. unfold clip_duration.
  destruct Z_lt_dec as [_ | Hc]; [| unfold n in Hn; lia].
  rewrite INR_IZR_INZ. f_equal. f_equal. unfold n. lia.
Qed.

Lemma fill_keys_track_after {A} (v : nat -> A) c fd (dflt : A) d :
  0 < d -> d = clip_duration c fd ->
  (2 <= List.length (fill_keys (Nat.ltb 0 (Z.to_nat (frame_count c))) dflt d
          (map (fun f => mkKey (INR f * fd) (v f)) (seq 0 (Z.to_nat (frame_count c))))))%nat
  /\ key_time (last (fill_keys (Nat.ltb 0 (Z.to_nat (frame_count c))) dflt d
          (map (fun f => mkKey (INR f * fd) (v f)) (seq 0 (Z.to_nat (frame_count c)))))
                    (mkKey 0 dflt)) = d.
Proof.
  intros Hd Hdd. apply fill_keys_last; [exact Hd |].
  intros _ H2. rewrite Hdd. apply track_keys_last. exact H2.
Qed.

Lemma nth_map_seq {A} (g : nat -> A) n j d :
  (j < n)%nat -> nth j (map g (seq 0 n)) d = g j.
Proof.
  intros Hj. rewrite (nth_indep _ d (g 0%nat)) by (rewrite length_map, length_seq; exact Hj).
  rewrite map_nth, seq_nth by exact Hj. reflexivity.
Qed.

End ImportShape.

Section ImportClaims.
Import Ozz GlaImporter.

(** C6: every animation [Import] produces has a positive duration, and
    each of its translation, rotation and scale tracks has at least two
    keys, the last of them at time [duration] exactly. *)
Theorem Import_tracks_end_at_duration src c nm sk sr V a :
  Import src (Some c) nm sk sr V = Some a ->
  0 < duration a /\
  Forall (fun tr =>
            (2 <= List.length (translations tr))%nat
            /\ key_time (last (translations tr) (mkKey 0 Float3_zero)) = duration a
            /\ (2 <= List.length (rotations tr))%nat
            /\ key_time (last (rotations tr) (mkKey 0 Quaternion_identity)) = duration a
            /\ (2 <= List.length (scales tr))%nat
            /\ key_time (last (scales tr) (mkKey 0 Float3_one)) = duration a)
         (tracks a).
Proof.
  intros H. destruct (ImportWith_spec phase1 _ _ _ _ _ _ _ H) as [_ [Hd Ht]].
  assert (Hfd : 0 < 1 / resolve_fps c sr).
  { pose proof (resolve_fps_pos c sr). unfold Rdiv. rewrite Rmult_1_l.
    apply Rinv_0_lt_compat. exact H0. }
  assert (Hpos : 0 < duration a) by (rewrite Hd; apply clip_duration_pos; exact Hfd).
  split; [exact Hpos |].
  rewrite Ht. apply Forall_forall. intros tr Htr. apply in_map_iff in Htr as [i [<- _]].
  unfold fill_track, track_after. cbn [translations rotations scales].
  repeat split;
    first [ apply (proj1 (fill_keys_track_after _ c _ _ _ Hpos Hd))
          | apply (proj2 (fill_keys_track_after _ c _ _ _ Hpos Hd)) ].
Qed.

(** C7: for a clip the cfg parser accepts (positive frame count), the
    duration [Import] gives the animation is [(frame_count - 1) / fps], or
    [1 / fps] when [frame_count = 1], with fps the clip's own if positive,
    else the sampling rate if positive, else 20. *)
Theorem Import_duration_resolved src c nm sk sr V a :
  clip_accepted c -> Import src (Some c) nm sk sr V = Some a ->
  duration a = duration_spec c sr.
Proof.
  intros Hc H. destruct (ImportWith_spec phase1 _ _ _ _ _ _ _ H) as [_ [Hd _]].
  rewrite Hd.
  assert (Ef : resolve_fps c sr = fps_spec c sr).
  { unfold resolve_fps, fps_spec. cbv zeta.
    destruct (Rgt_dec (fps c) 0); [destruct Rle_dec; lra |].
    destruct (Rgt_dec sr 0); destruct Rle_dec; lra. }
  rewrite Ef. unfold clip_duration, duration_spec, clip_accepted in *. cbv zeta.
  destruct Z_lt_dec; destruct (Z.eqb_spec (frame_count c) 1); try lia; reflexivity.
Qed.

(** C2 (defect): the joint "root" of [sk_unmatched] has no GLA bone of its
    name in [src_pelvis]. Phase 1 gives it world position zero, phase 2
    marks it animated like every joint, so the rest-pose fill never runs for
    it, and its imported translation keys are zero in both frames, not its
    rest translation (1, 0, 0). *)
Lemma Import_unmatched_joint_not_rest :
  exists a,
    ozz_to_gla_find sk_unmatched src_pelvis 0 = None
    /\ snd (frame_loop sk_unmatched (phase1 sk_unmatched src_pelvis) clip2
              (1 / resolve_fps clip2 30) (repeat empty_track 1, repeat false 1)) = [true]
    /\ Import src_pelvis (Some clip2) "walk" sk_unmatched 30 (fun _ => true) = Some a
    /\ map key_value (translations (nth 0 (tracks a) empty_track)) = [Float3_zero; Float3_zero]
    /\ translation (rest_pose sk_unmatched 0) = mkFloat3 1 0 0
    /\ mkFloat3 1 0 0 <> Float3_zero.
Proof.
  eexists. split; [reflexivity |]. split; [reflexivity |].
  split; [reflexivity |]. split; [reflexivity |]. split; [reflexivity |].
  intros E. injection E as E. lra.
Qed.

(** C1 (defect): [Import] of gla2ozz.cc keeps root motion. The root of
    [sk_root], matched by a bone at (1, 0, 0), gets the converted position
    [ConvertPosition 1 0 0], which is not zero, as translation key in both
    frames; the copy of [Import] with "Phase 1.5" recentring gives zero. *)
Theorem Import_keeps_root_motion :
  exists a b,
    Import src_root (Some clip2) "walk" sk_root 30 (fun _ => true) = Some a
    /\ Import_recentred src_root (Some clip2) "walk" sk_root 30 (fun _ => true) = Some b
    /\ map key_value (translations (nth 0 (tracks a) empty_track))
       = [coord_convert.ConvertPosition 1 0 0; coord_convert.ConvertPosition 1 0 0]
    /\ coord_convert.ConvertPosition 1 0 0 <> Float3_zero
    /\ map key_value (translations (nth 0 (tracks b) empty_track)) = [Float3_zero; Float3_zero].
Proof.
  do 2 eexists. split; [reflexivity |]. split; [reflexivity |].
  split; [reflexivity |]. split.
  - unfold coord_convert.ConvertPosition, coord_convert.SCALE_FACTOR.
    intros E. injection E as E1 _ _. lra.
  - simpl. unfold Float3_zero. repeat f_equal; ring.
Qed.

(** Witnesses: the hypotheses of the importer theorems hold together on
    the concrete skeletons and sources above. *)
Lemma Import_tracks_end_at_duration_witness :
  exists a, Import src_root (Some clip2) "walk" sk_root 30 (fun _ => true) = Some a
            /\ 0 < duration a.
Proof.
  eexists. split; [reflexivity |].
  exact (proj1 (Import_tracks_end_at_duration src_root clip2 "walk" sk_root 30
                  (fun _ => true) _ eq_refl)).
Defined.

Lemma Import_duration_resolved_witness :
  exists a, clip_accepted clip2
            /\ Import src_root (Some clip2) "walk" sk_root 30 (fun _ => true) = Some a
            /\ duration a = duration_spec clip2 30.
Proof.
  eexists. split; [unfold clip_accepted; simpl; lia |]. split; [reflexivity |].
  apply (Import_duration_resolved src_root clip2 "walk" sk_root 30 (fun _ => true)).
  - unfold clip_accepted; simpl; lia.
  - reflexivity.
Defined.

End ImportClaims.


(** ** The frame loop of the retargeter *)

(** ** World rotations along a parents-first skeleton *)

Section WorldRotationChain.
Import Ozz RetargetMain RetargetHelpers.

Lemma QuatMul_identity_l (q : Quaternion) : QuatMul Quaternion_identity q = q.
Proof. destruct q; unfold QuatMul, qmul, Quaternion_identity; simpl; f_equal; ring. Qed.

Lemma QuatMul_identity_r (q : Quaternion) : QuatMul q Quaternion_identity = q.
Proof. destruct q; unfold QuatMul, qmul, Quaternion_identity; simpl; f_equal; ring. Qed.

Lemma QuatMul_assoc (a b c : Quaternion) : QuatMul (QuatMul a b) c = QuatMul a (QuatMul b c).
Proof. unfold QuatMul, qmul; simpl; f_equal; ring. Qed.

Lemma nth_map_lt {A B} (g : A -> B) (l : list A) (j : nat) (d : B) (d' : A) :
  (j < List.length l)%nat -> nth j (map g l) d = g (nth j l d').
Proof.
  revert j. induction l as [| x l IH]; intros [| j] Hj; simpl in *; try lia; auto.
  apply IH. lia.
Qed.

Lemma length_source_worlds (src : Skeleton) (locals : list Transform) (swr : list Quaternion) :
  List.length (source_worlds src locals swr) = List.length swr.
Proof.
  unfold source_worlds. generalize (seq 0 (num_joints src)) as l. intros l.
  revert swr. induction l as [| i l IH]; intros swr; simpl; [reflexivity |].
  rewrite IH. destruct Z_lt_dec; apply length_upd.
Qed.

Variable sk : Skeleton.
Variable locals : list Transform.
Hypothesis parents_first : forall i, (i < num_joints sk)%nat -> (joint_parent sk i < Z.of_nat i)%Z.

Lemma source_worlds_prefix (k : nat) (swr0 : list Quaternion) :
  (k <= num_joints sk)%nat -> List.length swr0 = num_joints sk ->
  let l := fold_left (fun swr i =>
               let local := rotation (local_at locals i) in
               let parent := joint_parent sk i in
               if Z_lt_dec parent 0 then upd swr i local
               else upd swr i (QuatMul (nth (Z.to_nat parent) swr Quaternion_identity) local))
            (seq 0 k) swr0 in
  List.length l = num_joints sk
  /\ forall j, (j < k)%nat ->
     nth j l Quaternion_identity
     = if Z_lt_dec (joint_parent sk j) 0 then rotation (local_at locals j)
       else QuatMul (nth (Z.to_nat (joint_parent sk j)) l Quaternion_identity) (rotation (local_at locals j)).
Proof.
  intros Hk Hlen. induction k as [| k IH]; cbv zeta in *.
  - split; [exact Hlen | intros j Hj; lia].
  - rewrite seq_S, fold_left_app. simpl.
    destruct IH as [Hl Hj]; [lia |].
    set (l := fold_left _ (seq 0 k) swr0) in *.
    pose proof (parents_first k ltac:(lia)) as Pk.
    assert (Hupd : forall x, List.length (upd l k x) = num_joints sk
              /\ nth k (upd l k x) Quaternion_identity = x
              /\ forall j, j <> k -> nth j (upd l k x) Quaternion_identity = nth j l Quaternion_identity).
    { intros x. split; [rewrite length_upd; exact Hl |]. split; [apply nth_upd_same; lia |].
      intros j Hne. apply nth_upd_other. congruence. }
    destruct (Z_lt_dec (joint_parent sk k) 0) as [Hr | Hr];
      [destruct (Hupd (rotation (local_at locals k))) as (L & S & O)
      | destruct (Hupd (QuatMul (nth (Z.to_nat (joint_parent sk k)) l Quaternion_identity)
                                (rotation (local_at locals k)))) as (L & S & O)];
      (split; [exact L |]); intros j Hj'.
    + destruct (Nat.eq_dec j k) as [-> | Hne].
      * rewrite S. destruct Z_lt_dec; [reflexivity | lia].
      * rewrite (O j Hne), (Hj j ltac:(lia)). destruct Z_lt_dec; [reflexivity |].
        pose proof (parents_first j ltac:(lia)).
        rewrite (O (Z.to_nat (joint_parent sk j))) by lia. reflexivity.
    + destruct (Nat.eq_dec j k) as [-> | Hne].
      * rewrite S. destruct Z_lt_dec; [lia |].
        rewrite (O (Z.to_nat (joint_parent sk k))) by lia. reflexivity.
      * rewrite (O j Hne), (Hj j ltac:(lia)). destruct Z_lt_dec; [reflexivity |].
        pose proof (parents_first j ltac:(lia)).
        rewrite (O (Z.to_nat (joint_parent sk j))) by lia. reflexivity.
Qed.


(** Any vector [W] that satisfies the parents-first recurrence of world
    rotations is what the [while] loop of [ComputeWorldRotation] walks. *)
Lemma world_rotation_loop_rec (W : list Quaternion) :
  (forall j, (j < num_joints sk)%nat ->
     nth j W Quaternion_identity
     = if Z_lt_dec (joint_parent sk j) 0 then rotation (local_at locals j)
       else QuatMul (nth (Z.to_nat (joint_parent sk j)) W Quaternion_identity)
                    (rotation (local_at locals j))) ->
  forall j fuel w, (j < num_joints sk)%nat -> (j < fuel)%nat ->
  world_rotation_loop fuel locals sk (Z.of_nat j) w
  = Some (QuatMul (nth j W Quaternion_identity) w).
Proof.
  intros Hsw j. induction j as [j IH] using lt_wf_ind. intros fuel w Hj Hf.
  destruct fuel as [| fuel]; [lia |]. simpl.
  destruct (Z_lt_dec (Z.of_nat j) 0) as [Hneg | _]; [lia |].
  rewrite Nat2Z.id. rewrite (Hsw j Hj). pose proof (parents_first j Hj) as Pj.
  destruct (Z_lt_dec (joint_parent sk j) 0) as [Hr | Hr].
  - destruct fuel; simpl; destruct Z_lt_dec; try lia; reflexivity.
  - replace (joint_parent sk j) with (Z.of_nat (Z.to_nat (joint_parent sk j))) at 1 by lia.
    rewrite (IH (Z.to_nat (joint_parent sk j))) by lia.
    rewrite QuatMul_assoc. reflexivity.
Qed.

Lemma ComputeWorldRotation_rec (W : list Quaternion) :
  (forall j, (j < num_joints sk)%nat ->
     nth j W Quaternion_identity
     = if Z_lt_dec (joint_parent sk j) 0 then rotation (local_at locals j)
       else QuatMul (nth (Z.to_nat (joint_parent sk j)) W Quaternion_identity)
                    (rotation (local_at locals j))) ->
  forall p, (0 <= p)%Z -> (Z.to_nat p < num_joints sk)%nat ->
  ComputeWorldRotation (num_joints sk) locals sk p = Some (nth (Z.to_nat p) W Quaternion_identity).
Proof.
  intros Hsw p Hp Hlt. unfold ComputeWorldRotation.
  replace p with (Z.of_nat (Z.to_nat p)) at 1 by lia.
  rewrite (world_rotation_loop_rec W Hsw (Z.to_nat p)) by lia.
  rewrite QuatMul_identity_r. reflexivity.
Qed.

End WorldRotationChain.

Section RetargetLoop.
Import Ozz RetargetMain.

Variables (src tgt : Skeleton) (infos : list BoneMappingInfo).

Lemma frames_loop_app Sample dur ts l1 l2 st :
  frames_loop src tgt infos Sample dur ts (l1 ++ l2) st
  = match frames_loop src tgt infos Sample dur ts l1 st with
    | Some st' => frames_loop src tgt infos Sample dur ts l2 st'
    | None => None
    end.
Proof.
  revert st. induction l1 as [| f l1 IH]; intros st; simpl; [reflexivity |].
  destruct (frame_step src tgt infos Sample dur ts st f); [apply IH | reflexivity].
Qed.

(** The loop over target joints pushes, for every joint it visits, the
    keys of [target_pose] taken with the target world rotations as they
    stand at that point. *)
Lemma target_fold_spec locals swr time (l : list nat) trs twr :
  NoDup l -> (forall j, In j l -> j < List.length trs)%nat ->
  let st' := fold_left (target_step tgt src infos locals swr time) l (trs, twr) in
  List.length (fst st') = List.length trs /\
  forall j,
    (In j l -> exists twr_j,
        let pose := target_pose tgt src (nth j infos default_info) locals swr
                                (target_parent_world tgt twr_j j) j in
        nth j (fst st') empty_track
        = push_keys (nth j trs empty_track) time
                    (translation pose) (rotation pose) (scale pose)) /\
    (~ In j l -> nth j (fst st') empty_track = nth j trs empty_track).
Proof.
  revert trs twr. induction l as [| a l IH]; intros trs twr Hnd Hlt; simpl.
  - split; [reflexivity |]. intros j; split; [intros [] | auto].
  - inversion Hnd as [| ? ? Hna Hnd']; subst.
    assert (Ha : (a < List.length trs)%nat) by (apply Hlt; left; reflexivity).
    set (pose_a := target_pose tgt src (nth a infos default_info) locals swr
                               (target_parent_world tgt twr a) a).
    set (trs1 := upd trs a (push_keys (nth a trs empty_track) time
                              (translation pose_a) (rotation pose_a) (scale pose_a))).
    set (twr1 := upd twr a (QuatMul (target_parent_world tgt twr a) (rotation pose_a))).
    assert (P2 : forall j, In j l -> (j < List.length trs1)%nat).
    { intros j Hj. unfold trs1. rewrite length_upd. apply Hlt. right. exact Hj. }
    destruct (IH trs1 twr1 Hnd' P2) as [L H].
    unfold trs1 in L. rewrite length_upd in L.
    split; [exact L |].
    intros j. destruct (H j) as [Hin Hout]. split.
    + intros [<- | Hj].
      * exists twr. rewrite (Hout Hna). unfold trs1. apply nth_upd_same. exact Ha.
      * assert (Haj : a <> j) by (intros ->; contradiction).
        destruct (Hin Hj) as [twr_j E]. exists twr_j. rewrite E.
        unfold trs1. rewrite nth_upd_other by exact Haj. reflexivity.
    + intros Hn. rewrite (Hout (fun Hj => Hn (or_intror Hj))).
      unfold trs1. apply nth_upd_other. intros ->. apply Hn. left. reflexivity.
Qed.

Lemma nth_snoc {A} (l : list A) x f d :
  nth f (l ++ [x]) d = if Nat.eqb f (List.length l) then x else nth f l d.
Proof.
  destruct (Nat.eqb_spec f (List.length l)) as [-> | Hf].
  - rewrite nth_middle. reflexivity.
  - destruct (Nat.lt_ge_cases f (List.length l)) as [Hl | Hg].
    + apply app_nth1. exact Hl.
    + rewrite app_nth2 by exact Hg. rewrite !nth_overflow; simpl; auto; lia.
Qed.

(** After [n] successful frames every target track holds [n] keys of each
    kind, key [f] being the [target_pose] of frame [f]'s sample. *)
Lemma frames_loop_spec Sample dur ts n swr0 twr0 st :
  frames_loop src tgt infos Sample dur ts (seq 0 n)
    (repeat empty_track (num_joints tgt), swr0, twr0) = Some st ->
  let trs := fst (fst st) in
  List.length trs = num_joints tgt /\
  forall t, (t < num_joints tgt)%nat ->
    track_len (nth t trs empty_track) n /\
    forall f, (f < n)%nat ->
      exists locals swr_prev twr_f,
        Sample (INR f * ts / dur) = Some locals /\
        keys_at (nth t trs empty_track) f (INR f * ts)
          (target_pose tgt src (nth t infos default_info) locals
             (source_worlds src locals swr_prev) (target_parent_world tgt twr_f t) t).
Proof.
  revert st. induction n as [| n IH]; intros st Hrun.
  - simpl in Hrun. injection Hrun as <-. simpl. rewrite repeat_length.
    split; [reflexivity |]. intros t Ht. rewrite nth_repeat.
    split; [repeat split | intros f Hf; lia].
  - rewrite seq_S, frames_loop_app in Hrun. simpl in Hrun.
    destruct (frames_loop src tgt infos Sample dur ts (seq 0 n) _) as [st1 |] eqn:E1;
      [| discriminate].
    destruct (IH st1 eq_refl) as [L1 H1].
    destruct st1 as [[trs1 swr1] twr1]. simpl in L1, H1.
    unfold frame_step in Hrun.
    destruct (Sample (INR n * ts / dur)) as [locals |] eqn:ES; [| discriminate].
    pose proof (target_fold_spec locals (source_worlds src locals swr1) (INR n * ts)
                  (seq 0 (num_joints tgt)) trs1 twr1 (seq_NoDup _ 0)) as Hf.
    destruct Hf as [L2 H2]; [intros j Hj; apply in_seq in Hj; lia |].
    destruct (fold_left _ (seq 0 (num_joints tgt)) (trs1, twr1)) as [trs2 twr2] eqn:E2.
    injection Hrun as <-. simpl in L2, H2 |- *.
    split; [lia |]. intros t Ht.
    destruct (proj1 (H2 t) (proj2 (in_seq _ _ _) (conj (Nat.le_0_l t) Ht))) as [twr_t Et].
    destruct (H1 t Ht) as [[T1 [T2 T3]] K1].
    rewrite Et. unfold push_keys, track_len, keys_at. cbn [translations rotations scales].
    rewrite !length_app, T1, T2, T3. simpl.
    split; [repeat split; lia |].
    intros f Hf. rewrite !nth_snoc, T1, T2, T3.
    destruct (Nat.eqb_spec f n) as [-> | Hfn].
    + exists locals, swr1, twr_t. split; [exact ES | repeat split].
    + destruct (K1 f ltac:(lia)) as [locals' [swr' [twr' [S' K']]]].
      exists locals', swr', twr'. split; [exact S' | exact K'].
Qed.

Lemma target_parent_world_upd twr k x j :
  joint_parent tgt j <> Z.of_nat k ->
  target_parent_world tgt (upd twr k x) j = target_parent_world tgt twr j.
Proof.
  intros H. unfold target_parent_world. destruct Z_lt_dec; [reflexivity |].
  apply nth_upd_other. lia.
Qed.

(** When every target joint comes after its parent, the loop over target
    joints leaves in [target_world_rotations] the product of each joint's
    parent world rotation and its pushed rotation, and the parent world
    rotation each joint was keyed with is the final one of the frame. *)
Lemma target_fold_worlds locals swr time
  (Hpf : forall i, (i < num_joints tgt)%nat -> (joint_parent tgt i < Z.of_nat i)%Z)
  k trs twr :
  (k <= num_joints tgt)%nat -> List.length trs = num_joints tgt ->
  List.length twr = num_joints tgt ->
  let st' := fold_left (target_step tgt src infos locals swr time) (seq 0 k) (trs, twr) in
  List.length (fst st') = num_joints tgt /\ List.length (snd st') = num_joints tgt /\
  (forall j, (j < k)%nat ->
     let pose := target_pose tgt src (nth j infos default_info) locals swr
                             (target_parent_world tgt (snd st') j) j in
     nth j (fst st') empty_track
     = push_keys (nth j trs empty_track) time (translation pose) (rotation pose) (scale pose)
     /\ nth j (snd st') Quaternion_identity
        = QuatMul (target_parent_world tgt (snd st') j) (rotation pose)) /\
  (forall j, (k <= j)%nat -> nth j (fst st') empty_track = nth j trs empty_track).
Proof.
  intros Hk Ltrs Ltwr. induction k as [| k IH]; cbv zeta.
  - simpl. split; [exact Ltrs |]. split; [exact Ltwr |]. split; [intros j Hj; lia |].
    intros j _. reflexivity.
  - rewrite seq_S, fold_left_app. cbv zeta in IH.
    destruct IH as (L1 & L2 & Hin & Hout); [lia |].
    destruct (fold_left (target_step tgt src infos locals swr time) (seq 0 k) (trs, twr))
      as [trs_k twr_k] eqn:E.
    simpl in L1, L2, Hin, Hout |- *.
    set (tpw := target_parent_world tgt twr_k k).
    set (pose_k := target_pose tgt src (nth k infos default_info) locals swr tpw k).
    assert (Tk : forall j, (j <= k)%nat ->
              target_parent_world tgt (upd twr_k k (QuatMul tpw (rotation pose_k))) j
              = target_parent_world tgt twr_k j).
    { intros j Hj. apply target_parent_world_upd. pose proof (Hpf j ltac:(lia)). lia. }
    split; [rewrite length_upd; exact L1 |]. split; [rewrite length_upd; exact L2 |].
    split.
    + intros j Hj. rewrite (Tk j ltac:(lia)).
      destruct (Nat.eq_dec j k) as [-> | Hne].
      * rewrite !nth_upd_same by lia. rewrite (Hout k (le_n k)).
        split; reflexivity.
      * rewrite !nth_upd_other by congruence. apply Hin. lia.
    + intros j Hj. rewrite nth_upd_other by lia. apply Hout. lia.
Qed.

(** [frames_loop_spec] with the target world rotations of each frame:
    with parents before children in the target skeleton, frame [f]'s
    [target_world_rotations] satisfy the world-rotation recurrence on the
    rotations keyed at frame [f]. *)
Lemma frames_loop_worlds Sample dur ts
  (Hpf : forall i, (i < num_joints tgt)%nat -> (joint_parent tgt i < Z.of_nat i)%Z)
  n swr0 twr0 st :
  List.length swr0 = num_joints src -> List.length twr0 = num_joints tgt ->
  frames_loop src tgt infos Sample dur ts (seq 0 n)
    (repeat empty_track (num_joints tgt), swr0, twr0) = Some st ->
  let trs := fst (fst st) in
  List.length trs = num_joints tgt /\ List.length (snd (fst st)) = num_joints src
  /\ List.length (snd st) = num_joints tgt
  /\ (forall t, (t < num_joints tgt)%nat -> track_len (nth t trs empty_track) n)
  /\ forall f, (f < n)%nat ->
     exists locals swr_prev twr_f,
       Sample (INR f * ts / dur) = Some locals /\ List.length swr_prev = num_joints src
       /\ List.length twr_f = num_joints tgt
       /\ forall t, (t < num_joints tgt)%nat ->
          let pose := target_pose tgt src (nth t infos default_info) locals
                        (source_worlds src locals swr_prev) (target_parent_world tgt twr_f t) t in
          keys_at (nth t trs empty_track) f (INR f * ts) pose
          /\ nth t twr_f Quaternion_identity
             = QuatMul (target_parent_world tgt twr_f t) (rotation pose).
Proof.
  intros Ls0 Lt0. revert st. induction n as [| n IH]; intros st Hrun.
  - simpl in Hrun. injection Hrun as <-. simpl. rewrite repeat_length.
    split; [reflexivity |]. split; [exact Ls0 |]. split; [exact Lt0 |].
    split; [| intros f Hf; lia].
    intros t Ht. rewrite nth_repeat. repeat split.
  - rewrite seq_S, frames_loop_app in Hrun. simpl in Hrun.
    destruct (frames_loop src tgt infos Sample dur ts (seq 0 n) _) as [st1 |] eqn:E1;
      [| discriminate].
    destruct (IH st1 eq_refl) as (L1 & LS1 & LT1 & TL1 & K1).
    destruct st1 as [[trs1 swr1] twr1]. simpl in L1, LS1, LT1, TL1, K1.
    unfold frame_step in Hrun.
    destruct (Sample (INR n * ts / dur)) as [locals |] eqn:ES; [| discriminate].
    pose proof (target_fold_worlds locals (source_worlds src locals swr1) (INR n * ts) Hpf
                  (num_joints tgt) trs1 twr1 (le_n _) L1 LT1) as Hf.
    cbv zeta in Hf.
    destruct (fold_left _ (seq 0 (num_joints tgt)) (trs1, twr1)) as [trs2 twr2] eqn:E2.
    destruct Hf as (La & Lb & Hin & _). simpl in La, Lb, Hin.
    injection Hrun as <-. simpl.
    split; [exact La |]. split; [rewrite length_source_worlds; exact LS1 |].
    split; [exact Lb |]. split.
    + intros t Ht. destruct (Hin t Ht) as [Eq _]. rewrite Eq.
      destruct (TL1 t Ht) as [T1 [T2 T3]].
      unfold push_keys, track_len. cbn [translations rotations scales].
      rewrite !length_app, T1, T2, T3. simpl. repeat split; lia.
    + intros f Hf. destruct (Nat.eqb_spec f n) as [-> | Hfn].
      * exists locals, swr1, twr2. split; [exact ES |]. split; [exact LS1 |].
        split; [exact Lb |]. intros t Ht. destruct (Hin t Ht) as [Eq Ew].
        split; [| exact Ew]. rewrite Eq.
        destruct (TL1 t Ht) as [T1 [T2 T3]].
        unfold push_keys, keys_at. cbn [translations rotations scales].
        rewrite !nth_snoc, T1, T2, T3, Nat.eqb_refl. repeat split.
      * destruct (K1 f ltac:(lia)) as (locals' & swr' & twr' & S' & Ls' & Lt' & K').
        exists locals', swr', twr'. split; [exact S' |]. split; [exact Ls' |].
        split; [exact Lt' |]. intros t Ht. destruct (K' t Ht) as [Kt Wt].
        split; [| exact Wt]. destruct (Hin t Ht) as [Eq _]. rewrite Eq.
        destruct (TL1 t Ht) as [T1 [T2 T3]].
        unfold push_keys, keys_at in *. cbn [translations rotations scales].
        rewrite !nth_snoc, T1, T2, T3.
        destruct (Nat.eqb_spec f n) as [E' | _]; [lia |]. exact Kt.
Qed.

End RetargetLoop.

(** ** The retargeter's mapping information and its output *)

Section RetargetShape.
Import Ozz RetargetMain.

Lemma trunc_IZR (z : Z) : (0 <= z)%Z -> trunc (IZR z) = z.
Proof.
  intros Hz. unfold trunc.
  destruct (Rle_dec 0 (IZR z)) as [_ | Hn]; [| exfalso; apply Hn; apply IZR_le; exact Hz].
  unfold Int_part. rewrite <- (up_tech (IZR z) z); [lia | lra | rewrite plus_IZR; lra].
Qed.

Lemma num_keyframes_1_1 : num_keyframes 1 1 = 2%Z.
Proof. unfold num_keyframes. rewrite Rmult_1_l, (trunc_IZR 1) by lia. reflexivity. Qed.

Lemma resolve_sources_acc mapper names acc :
  fold_left (fun acc src_name =>
               let idx := BoneMapper.GetSourceBoneIndex mapper src_name in
               if Z_le_dec 0 idx then acc ++ [idx] else acc) names acc
  = acc ++ filter (fun i => Z.leb 0 i) (map (BoneMapper.GetSourceBoneIndex mapper) names).
Proof.
  revert acc. induction names as [| s names IH]; intros acc; simpl.
  - rewrite app_nil_r. reflexivity.
  - rewrite IH. destruct Z_le_dec as [Hle | Hlt];
      destruct (Z.leb_spec 0 (BoneMapper.GetSourceBoneIndex mapper s)); try lia.
    + rewrite <- app_assoc. reflexivity.
    + reflexivity.
Qed.

Lemma resolve_sources_filter mapper names :
  resolve_sources mapper names
  = filter (fun i => Z.leb 0 i) (map (BoneMapper.GetSourceBoneIndex mapper) names).
Proof. unfold resolve_sources. apply resolve_sources_acc. Qed.

Lemma mapping_info_mapped mapper name m first others :
  BoneMapper.GetMapping mapper name = Some m ->
  resolve_sources mapper (BoneMapper.source_bones m) = first :: others ->
  mapping_info mapper name
  = mkBoneMappingInfo true (first :: others) (BoneMapper.is_combined m)
      (BoneMapper.correction m) (BoneMapper.has_correction m)
  /\ (others <> [] -> BoneMapper.is_combined m = true).
Proof.
  intros Hm Hr. pose proof Hr as Hr'. rewrite resolve_sources_filter in Hr'.
  assert (Hlen : (List.length (first :: others) <= List.length (BoneMapper.source_bones m))%nat).
  { rewrite <- Hr', <- (length_map (BoneMapper.GetSourceBoneIndex mapper)).
    apply filter_length_le. }
  split.
  - unfold mapping_info. rewrite Hm. unfold BoneMapper.is_unmapped.
    destruct (BoneMapper.source_bones m) as [| b bs]; [simpl in Hlen; lia |].
    simpl negb. cbv iota. rewrite Hr. reflexivity.
  - intros Ho. unfold BoneMapper.is_combined. apply Nat.ltb_lt.
    destruct others as [| o os]; [contradiction |]. simpl in Hlen. lia.
Qed.

Lemma mapping_info_unmapped mapper name :
  (BoneMapper.GetMapping mapper name = None
   \/ exists m, BoneMapper.GetMapping mapper name = Some m
                /\ Forall (fun s => (BoneMapper.GetSourceBoneIndex mapper s < 0)%Z)
                          (BoneMapper.source_bones m)) ->
  orb (negb (is_mapped (mapping_info mapper name)))
      (match source_indices (mapping_info mapper name) with [] => true | _ :: _ => false end)
  = true.
Proof.
  unfold mapping_info. intros [Hn | [m [Hm Hall]]].
  - rewrite Hn. reflexivity.
  - rewrite Hm. destruct (negb (BoneMapper.is_unmapped m)); [| reflexivity].
    simpl. rewrite resolve_sources_filter.
    induction Hall as [| s ss Hs _ IH]; [reflexivity |].
    simpl. destruct (Z.leb_spec 0 (BoneMapper.GetSourceBoneIndex mapper s)); [lia |].
    exact IH.
Qed.

Lemma fold_left_map_quat (g : Z -> Quaternion) (l : list Z) (q : Quaternion) :
  fold_left QuatMul (map g l) q = fold_left (fun acc s => QuatMul acc (g s)) l q.
Proof. revert q. induction l as [| s l IH]; intros q; simpl; [reflexivity | apply IH]. Qed.

Lemma Retarget_spec mapper src tgt dur sr Sample q0 V a :
  Retarget mapper src tgt dur sr Sample q0 V = Some a ->
  let nk := Z.to_nat (num_keyframes dur sr) in
  let ts := time_step dur (num_keyframes dur sr) in
  duration a = dur /\ List.length (tracks a) = num_joints tgt /\
  forall t, (t < num_joints tgt)%nat ->
    track_len (nth t (tracks a) empty_track) nk /\
    forall f, (f < nk)%nat ->
      exists locals swr_prev twr_f,
        Sample (INR f * ts / dur) = Some locals /\
        keys_at (nth t (tracks a) empty_track) f (INR f * ts)
          (target_pose tgt src (mapping_info mapper (nth t (joint_names tgt) ""%string))
             locals (source_worlds src locals swr_prev) (target_parent_world tgt twr_f t) t).
Proof.
  unfold Retarget. cbv zeta.
  destruct (frames_loop src tgt (mapping_infos mapper tgt) Sample dur _ _ _) as [st |] eqn:E;
    [| discriminate].
  pose proof (frames_loop_spec src tgt (mapping_infos mapper tgt) Sample dur _ _ _ _ _ E) as S.
  destruct st as [[trs swr] twr]. cbv zeta in S. simpl in S. destruct S as [L K].
  destruct (V _); [| discriminate]. intros H. injection H as <-. simpl.
  split; [reflexivity | split; [exact L |]].
  intros t Ht. destruct (K t Ht) as [TL KF]. split; [exact TL |].
  intros f Hf. destruct (KF f Hf) as [locals [swr_prev [twr_f [S1 K1]]]].
  exists locals, swr_prev, twr_f. split; [exact S1 |].
  unfold mapping_infos in K1. rewrite nth_map_seq in K1 by exact Ht. exact K1.
Qed.

End RetargetShape.

Section RetargetClaims.
Import Ozz RetargetMain.

(** C4: when no target joint is mapped (its name has no mapping entry, or
    none of the mapping's source names resolves to a source joint), every
    track of the retargeted animation has one key of each kind per sampled
    frame, and each of them is the joint's rest-pose translation, rotation
    and scale. *)
Theorem Retarget_unmapped_rest_pose mapper src tgt dur sr Sample q0 V a :
  (forall t, (t < num_joints tgt)%nat ->
     let name := nth t (joint_names tgt) ""%string in
     BoneMapper.GetMapping mapper name = None
     \/ exists m, BoneMapper.GetMapping mapper name = Some m
                  /\ Forall (fun s => (BoneMapper.GetSourceBoneIndex mapper s < 0)%Z)
                            (BoneMapper.source_bones m)) ->
  Retarget mapper src tgt dur sr Sample q0 V = Some a ->
  let nk := Z.to_nat (num_keyframes dur sr) in
  let ts := time_step dur (num_keyframes dur sr) in
  forall t, (t < num_joints tgt)%nat ->
    track_len (nth t (tracks a) empty_track) nk
    /\ forall f, (f < nk)%nat ->
         keys_at (nth t (tracks a) empty_track) f (INR f * ts) (rest_pose tgt t).
Proof.
  intros Hu H nk ts t Ht.
  destruct (Retarget_spec _ _ _ _ _ _ _ _ _ H) as [_ [_ K]].
  destruct (K t Ht) as [TL KF]. split; [exact TL |].
  intros f Hf. destruct (KF f Hf) as [locals [swr [twr [_ Kf]]]].
  unfold target_pose in Kf. rewrite (mapping_info_unmapped mapper _ (Hu t Ht)) in Kf.
  exact Kf.
Qed.

(** C5: let the source and target skeletons list parents before children,
    and let the mapping of target joint [t] resolve to more than one source
    joint, [first :: others] (the listed source names that resolve, in
    listed order). In every frame, the translation key is [first]'s sampled
    local translation. The rotation key is computed from the source world
    rotation [parent_world * (local first * local o1 * ...)], corrected if
    the mapping says so. Here [parent_world] is the world rotation of
    [first]'s parent in the sampled pose (identity for a root), as
    [ComputeWorldRotation] computes it. The key is that rotation expressed
    in the frame of the target parent's world rotation, which is the world
    rotation of the target parent in the frame's emitted keys (identity for
    a root). *)
Theorem Retarget_combined_rotation mapper src tgt dur sr Sample q0 V a t m first others :
  (forall i, (i < num_joints src)%nat -> (joint_parent src i < Z.of_nat i)%Z) ->
  (forall i, (i < num_joints tgt)%nat -> (joint_parent tgt i < Z.of_nat i)%Z) ->
  (t < num_joints tgt)%nat ->
  BoneMapper.GetMapping mapper (nth t (joint_names tgt) ""%string) = Some m ->
  resolve_sources mapper (BoneMapper.source_bones m) = first :: others ->
  others <> [] -> (Z.to_nat first < num_joints src)%nat ->
  Retarget mapper src tgt dur sr Sample q0 V = Some a ->
  let nk := Z.to_nat (num_keyframes dur sr) in
  let ts := time_step dur (num_keyframes dur sr) in
  resolve_sources mapper (BoneMapper.source_bones m)
  = filter (fun i => Z.leb 0 i)
           (map (BoneMapper.GetSourceBoneIndex mapper) (BoneMapper.source_bones m))
  /\ forall f, (f < nk)%nat ->
     exists locals parent_world tgt_parent_world,
       Sample (INR f * ts / dur) = Some locals
       /\ (let first_parent := joint_parent src (Z.to_nat first) in
           (first_parent < 0)%Z /\ parent_world = Quaternion_identity
           \/ (0 <= first_parent)%Z
              /\ RetargetHelpers.ComputeWorldRotation (num_joints src) locals src first_parent
                 = Some parent_world)
       /\ (let target_parent := joint_parent tgt t in
           (target_parent < 0)%Z /\ tgt_parent_world = Quaternion_identity
           \/ (0 <= target_parent)%Z
              /\ RetargetHelpers.ComputeWorldRotation (num_joints tgt) (frame_pose a f) tgt
                   target_parent = Some tgt_parent_world)
       /\ let local := fun s : Z => rotation (local_at locals (Z.to_nat s)) in
          let combined_local := fold_left QuatMul (map local others) (local first) in
          let source_world := QuatMul parent_world combined_local in
          let source_world := if BoneMapper.has_correction m
                              then QuatNormalize (QuatMul source_world (BoneMapper.correction m))
                              else source_world in
          keys_at (nth t (tracks a) empty_track) f (INR f * ts)
            (mkTransform (translation (local_at locals (Z.to_nat first)))
               (QuatNormalize (WorldToLocal source_world tgt_parent_world))
               Float3_one).
Proof.
  intros Hps Hpt Ht Hm Hr Ho Hfirst H nk ts.
  split; [apply resolve_sources_filter |].
  destruct (mapping_info_mapped mapper _ m first others Hm Hr) as [Hinfo Hcomb].
  unfold Retarget in H. cbv zeta in H.
  destruct (frames_loop src tgt (mapping_infos mapper tgt) Sample dur _ _ _) as [st |] eqn:E;
    [| discriminate].
  destruct st as [[trs swr] twr].
  destruct (V _) eqn:EV; [| discriminate]. injection H as <-.
  pose proof (frames_loop_worlds src tgt (mapping_infos mapper tgt) Sample dur _ Hpt _ _ _ _
                (repeat_length q0 (num_joints src)) (repeat_length q0 (num_joints tgt)) E)
    as W.
  cbv zeta in W. simpl in W. destruct W as (Ltrs & _ & _ & _ & K).
  intros f Hf. destruct (K f Hf) as (locals & swr_prev & twr_f & S & Ls & Lt & Kt).
  (* the target world rotations of frame [f], read back from its keys *)
  assert (Rt : forall j, (j < num_joints tgt)%nat ->
             nth j twr_f Quaternion_identity
             = if Z_lt_dec (joint_parent tgt j) 0 then rotation (local_at (frame_pose
                   (mkRawAnimation "retargeted" dur trs) f) j)
               else QuatMul (nth (Z.to_nat (joint_parent tgt j)) twr_f Quaternion_identity)
                      (rotation (local_at (frame_pose (mkRawAnimation "retargeted" dur trs) f) j))).
  { intros j Hj. destruct (Kt j Hj) as [[_ [Kr _]] Wj].
    unfold local_at, frame_pose. simpl tracks.
    rewrite (nth_map_lt _ _ _ _ empty_track) by lia. simpl rotation. rewrite Kr. simpl key_value.
    rewrite Wj. unfold target_parent_world.
    destruct Z_lt_dec; [apply QuatMul_identity_l | reflexivity]. }
  set (pw := if Z_lt_dec (joint_parent src (Z.to_nat first)) 0 then Quaternion_identity
             else nth (Z.to_nat (joint_parent src (Z.to_nat first)))
                    (source_worlds src locals swr_prev) Quaternion_identity).
  exists locals, pw, (target_parent_world tgt twr_f t). split; [exact S |]. split.
  { (* the source parent's world rotation *)
    unfold pw. cbv zeta. destruct Z_lt_dec as [Hn | Hn]; [left; split; [lia | reflexivity] | right].
    split; [lia |].
    destruct (source_worlds_prefix src locals Hps (num_joints src) swr_prev (le_n _) Ls)
      as [_ Hsw].
    cbv zeta in Hsw. fold (source_worlds src locals swr_prev) in Hsw.
    pose proof (Hps _ Hfirst) as Pf.
    apply (ComputeWorldRotation_rec src locals Hps); [exact Hsw | lia | lia]. }
  split.
  { (* the target parent's world rotation *)
    unfold target_parent_world. cbv zeta. pose proof (Hpt t Ht) as Pt.
    destruct (Z_lt_dec (joint_parent tgt t) 0) as [Hn | Hn]; [left; split; [lia | reflexivity] | right].
    split; [lia |].
    apply (ComputeWorldRotation_rec tgt _ Hpt); [exact Rt | lia | lia]. }
  (* the keys *)
  destruct (Kt t Ht) as [Kf _]. simpl tracks.
  cbv zeta. rewrite fold_left_map_quat.
  unfold mapping_infos in Kf. rewrite nth_map_seq in Kf by exact Ht.
  rewrite Hinfo in Kf. unfold target_pose, source_world_and_translation, apply_correction in Kf.
  cbn [is_mapped source_indices combine_rotations correction has_correction negb orb] in Kf.
  rewrite (Hcomb Ho) in Kf. destruct others as [| o os]; [contradiction |].
  exact Kf.
Qed.

(** C10: for a mapped target joint (its mapping resolves to at least one
    source joint, the first being [first]), every frame's translation key is
    [first]'s sampled local translation as it is, its scale key is
    (1, 1, 1), and only the rotation key is re-expressed in the target
    parent's frame. *)
Theorem Retarget_mapped_translation_verbatim mapper src tgt dur sr Sample q0 V a t m first others :
  (t < num_joints tgt)%nat ->
  BoneMapper.GetMapping mapper (nth t (joint_names tgt) ""%string) = Some m ->
  resolve_sources mapper (BoneMapper.source_bones m) = first :: others ->
  Retarget mapper src tgt dur sr Sample q0 V = Some a ->
  let nk := Z.to_nat (num_keyframes dur sr) in
  let ts := time_step dur (num_keyframes dur sr) in
  forall f, (f < nk)%nat ->
    exists locals twr source_world,
      Sample (INR f * ts / dur) = Some locals /\
      keys_at (nth t (tracks a) empty_track) f (INR f * ts)
        (mkTransform (translation (local_at locals (Z.to_nat first)))
           (QuatNormalize (WorldToLocal source_world (target_parent_world tgt twr t)))
           Float3_one).
Proof.
  intros Ht Hm Hr H nk ts f Hf.
  destruct (mapping_info_mapped mapper _ m first others Hm Hr) as [Hinfo _].
  destruct (Retarget_spec _ _ _ _ _ _ _ _ _ H) as [_ [_ K]].
  destruct (proj2 (K t Ht) f Hf) as [locals [swr [twr [S Kf]]]].
  rewrite Hinfo in Kf. unfold target_pose, source_world_and_translation in Kf.
  cbn [is_mapped source_indices combine_rotations negb orb] in Kf.
  destruct (andb _ _) in Kf; eexists locals, twr, _; (split; [exact S | exact Kf]).
Qed.

End RetargetClaims.

Section RetargetWitnesses.
Import Ozz RetargetMain.

Lemma Retarget_unmapped_rest_pose_witness :
  exists a,
    Retarget mapper_none src_chain tgt_chain 1 1 sample_const Quaternion_identity
      (fun _ => true) = Some a
    /\ keys_at (nth 1 (tracks a) empty_track) 1
         (INR 1 * time_step 1 (num_keyframes 1 1)) (rest_pose tgt_chain 1).
Proof.
  eexists. split.
  - unfold Retarget. rewrite num_keyframes_1_1. reflexivity.
  - refine (proj2 (Retarget_unmapped_rest_pose mapper_none src_chain tgt_chain 1 1
                     sample_const Quaternion_identity (fun _ => true) _ _ _ 1%nat _) 1%nat _).
    + intros t _. left. reflexivity.
    + unfold Retarget. rewrite num_keyframes_1_1. reflexivity.
    + unfold num_joints. simpl. lia.
    + rewrite num_keyframes_1_1. simpl. lia.
Defined.

Lemma Retarget_combined_rotation_witness :
  exists a,
    Retarget mapper_chain src_chain tgt_chain 1 1 sample_const Quaternion_identity
      (fun _ => true) = Some a
    /\ exists locals parent_world tgt_parent_world,
         sample_const (INR 1 * time_step 1 (num_keyframes 1 1) / 1) = Some locals
         /\ ((joint_parent src_chain 1 < 0)%Z /\ parent_world = Quaternion_identity
             \/ (0 <= joint_parent src_chain 1)%Z
                /\ RetargetHelpers.ComputeWorldRotation 3 locals src_chain (joint_parent src_chain 1)
                   = Some parent_world)
         /\ ((joint_parent tgt_chain 1 < 0)%Z /\ tgt_parent_world = Quaternion_identity
             \/ (0 <= joint_parent tgt_chain 1)%Z
                /\ RetargetHelpers.ComputeWorldRotation 2 (frame_pose a 1) tgt_chain
                     (joint_parent tgt_chain 1) = Some tgt_parent_world)
         /\ keys_at (nth 1 (tracks a) empty_track) 1 (INR 1 * time_step 1 (num_keyframes 1 1))
              (mkTransform (translation (local_at locals 1))
                 (QuatNormalize
                    (WorldToLocal
                       (QuatMul parent_world
                          (fold_left QuatMul [rotation (local_at locals 2)]
                             (rotation (local_at locals 1))))
                       tgt_parent_world))
                 Float3_one).
Proof.
  eexists. split.
  - unfold Retarget. rewrite num_keyframes_1_1. reflexivity.
  - refine (proj2 (Retarget_combined_rotation mapper_chain src_chain tgt_chain 1 1
                     sample_const Quaternion_identity (fun _ => true) _ 1%nat
                     (BoneMapper.mkBoneMapping "Spine" ["spine"; "chest"]%string true
                        Quaternion_identity false)
                     1%Z [2%Z] _ _ _ _ _ _ _ _) 1%nat _).
    + intros i Hi. unfold num_joints in Hi. simpl in Hi.
      destruct i as [| [| [| i]]]; unfold joint_parent; simpl; lia.
    + intros i Hi. unfold num_joints in Hi. simpl in Hi.
      destruct i as [| [| i]]; unfold joint_parent; simpl; lia.
    + unfold num_joints. simpl. lia.
    + reflexivity.
    + reflexivity.
    + discriminate.
    + unfold num_joints. simpl. lia.
    + unfold Retarget. rewrite num_keyframes_1_1. reflexivity.
    + rewrite num_keyframes_1_1. simpl. lia.
Defined.

Lemma Retarget_mapped_translation_verbatim_witness :
  exists a,
    Retarget mapper_chain src_chain tgt_chain 1 1 sample_const Quaternion_identity
      (fun _ => true) = Some a
    /\ exists locals twr source_world,
         sample_const (INR 1 * time_step 1 (num_keyframes 1 1) / 1) = Some locals
         /\ keys_at (nth 0 (tracks a) empty_track) 1
              (INR 1 * time_step 1 (num_keyframes 1 1))
              (mkTransform (translation (local_at locals 0))
                 (QuatNormalize (WorldToLocal source_world (target_parent_world tgt_chain twr 0)))
                 Float3_one).
Proof.
  eexists. split.
  - unfold Retarget. rewrite num_keyframes_1_1. reflexivity.
  - refine (Retarget_mapped_translation_verbatim mapper_chain src_chain tgt_chain 1 1
              sample_const Quaternion_identity (fun _ => true) _ 0%nat
              (BoneMapper.mkBoneMapping "Hips" ["hips"%string] false Quaternion_identity false)
              0%Z [] _ _ _ _ 1%nat _).
    + unfold num_joints. simpl. lia.
    + reflexivity.
    + reflexivity.
    + unfold Retarget. rewrite num_keyframes_1_1. reflexivity.
    + rewrite num_keyframes_1_1. simpl. lia.
Defined.

End RetargetWitnesses.

(** ** The quaternion and matrix helpers *)

Section GlaMathProps.
Import GlaMath.

Lemma pos_1e10 : 0 < 1 / 10 ^ 10.
Proof. apply Rdiv_lt_0_compat; [lra | apply pow_lt; lra]. Qed.

Lemma pos_1e6 : 0 < 1 / 10 ^ 6.
Proof. apply Rdiv_lt_0_compat; [lra | apply pow_lt; lra]. Qed.

Lemma qnorm2_scaled (a b c d : R) :
  0 < a * a + b * b + c * c + d * d ->
  let n := a * a + b * b + c * c + d * d in
  qnorm2 (mkQuat (a * (1 / sqrt n)) (b * (1 / sqrt n)) (c * (1 / sqrt n)) (d * (1 / sqrt n))) = 1.
Proof.
  intros Hn. cbv zeta. unfold qnorm2; simpl.
  remember (a * a + b * b + c * c + d * d) as n eqn:En.
  assert (Hs : sqrt n * sqrt n = n) by (apply sqrt_sqrt; lra).
  assert (Hp : 0 < sqrt n) by (apply sqrt_lt_R0; exact Hn).
  transitivity ((a * a + b * b + c * c + d * d) / (sqrt n * sqrt n)); [field; lra |].
  rewrite <- En, Hs. field. lra.
Qed.

Lemma NormalizeQuaternion_qnorm2 (q : Quaternion) :
  qnorm2 (coord_convert.NormalizeQuaternion q) = 1 /\ qnorm2 (QuaternionNormalize q) = 1.
Proof.
  pose proof pos_1e10.
  unfold coord_convert.NormalizeQuaternion, QuaternionNormalize.
  destruct Rlt_dec as [H1 | H1].
  - split; unfold qnorm2; simpl; ring.
  - split; apply qnorm2_scaled; lra.
Qed.

(** X1: coord_convert::NormalizeQuaternion and the parser's QuaternionNormalize always return a unit quaternion: the normalised input, or the identity when the squared length is below the threshold. *)
Theorem NormalizeQuaternion_unit (q : Quaternion) :
  qnorm2 (coord_convert.NormalizeQuaternion q) = 1 /\ qnorm2 (QuaternionNormalize q) = 1.
Proof. apply NormalizeQuaternion_qnorm2. Qed.

Lemma QuatNormalize_qnorm2 (q : Quaternion) : qnorm2 (RetargetMain.QuatNormalize q) = 1.
Proof.
  unfold RetargetMain.QuatNormalize.
  remember (qx q * qx q + qy q * qy q + qz q * qz q + qw q * qw q) as n eqn:En.
  destruct Rgt_dec as [H | H].
  - assert (Hn0 : 0 <= n) by (rewrite En; nra).
    assert (Hs : sqrt n * sqrt n = n) by (apply sqrt_sqrt; exact Hn0).
    assert (Hpos : 0 < sqrt n) by lra.
    unfold qnorm2; simpl.
    transitivity ((qx q * qx q + qy q * qy q + qz q * qz q + qw q * qw q) / (sqrt n * sqrt n));
      [field; lra |].
    rewrite <- En, Hs. field. intros E. rewrite E, sqrt_0 in Hpos. lra.
  - unfold qnorm2; simpl; ring.
Qed.

(** X2: The retargeter's QuatNormalize always returns a unit quaternion: the normalised input, or the identity when the length is below the threshold. *)
Theorem QuatNormalize_unit (q : Quaternion) : qnorm2 (RetargetMain.QuatNormalize q) = 1.
Proof. apply QuatNormalize_qnorm2. Qed.

Lemma RotateVectorByQuaternion_norm (q : Quaternion) (v : Float3) :
  vnorm2 (RotateVectorByQuaternion q v) = qnorm2 q * qnorm2 q * vnorm2 v.
Proof. unfold RotateVectorByQuaternion, QuaternionMultiply, QuaternionConjugate, qmul,
  vnorm2, qnorm2; simpl; ring. Qed.

(** X3: RotateVectorByQuaternion by a unit quaternion preserves the squared length of the vector. *)
Theorem RotateVectorByQuaternion_length (q : Quaternion) (v : Float3) :
  qnorm2 q = 1 -> vnorm2 (RotateVectorByQuaternion q v) = vnorm2 v.
Proof. intros H. rewrite RotateVectorByQuaternion_norm, H. ring. Qed.


(** [BuildMatrix34] of a unit quaternion is its homogeneous rotation
    matrix. *)
Lemma BuildMatrix34_homog (q : Quaternion) (t : Float3) :
  qnorm2 q = 1 ->
  BuildMatrix34 q t =
  mkMatrix34
    (qw q * qw q + qx q * qx q - qy q * qy q - qz q * qz q)
    (2 * (qx q * qy q - qw q * qz q)) (2 * (qx q * qz q + qw q * qy q)) (f3x t)
    (2 * (qx q * qy q + qw q * qz q))
    (qw q * qw q - qx q * qx q + qy q * qy q - qz q * qz q)
    (2 * (qy q * qz q - qw q * qx q)) (f3y t)
    (2 * (qx q * qz q - qw q * qy q)) (2 * (qy q * qz q + qw q * qx q))
    (qw q * qw q - qx q * qx q - qy q * qy q + qz q * qz q) (f3z t).
Proof.
  unfold qnorm2. intros H. unfold BuildMatrix34. f_equal; nra.
Qed.

Lemma qnorm2_qmul (a b : Quaternion) : qnorm2 (qmul a b) = qnorm2 a * qnorm2 b.
Proof. unfold qnorm2, qmul; simpl; ring. Qed.

(** X4: The matrix BuildMatrix34 q t, applied to a point v, gives the rotation of v by the unit quaternion q followed by the translation t. *)
Theorem BuildMatrix34_transform_point (q : Quaternion) (t v : Float3) :
  qnorm2 q = 1 ->
  transform_point (BuildMatrix34 q t) v = f3add (RotateVectorByQuaternion q v) t.
Proof.
  intros H. rewrite (BuildMatrix34_homog q t H).
  unfold transform_point, f3add, RotateVectorByQuaternion, QuaternionMultiply,
    QuaternionConjugate, qmul; simpl. f_equal; ring.
Qed.

Lemma MultiplyMatrix34_Build (a b : Quaternion) (ta tb : Float3) :
  qnorm2 a = 1 -> qnorm2 b = 1 ->
  MultiplyMatrix34 (BuildMatrix34 a ta) (BuildMatrix34 b tb)
  = BuildMatrix34 (QuaternionMultiply a b) (f3add (RotateVectorByQuaternion a tb) ta).
Proof.
  intros Ha Hb.
  assert (Hab : qnorm2 (QuaternionMultiply a b) = 1)
    by (unfold QuaternionMultiply; rewrite qnorm2_qmul, Ha, Hb; ring).
  rewrite (BuildMatrix34_homog a ta Ha), (BuildMatrix34_homog b tb Hb),
    (BuildMatrix34_homog _ _ Hab).
  unfold MultiplyMatrix34, mat_of, mat_at, f3add, RotateVectorByQuaternion,
    QuaternionMultiply, QuaternionConjugate, qmul; simpl. f_equal; ring.
Qed.

(** X5: For unit quaternions, MultiplyMatrix34 of two BuildMatrix34 matrices is the BuildMatrix34 of the quaternion product, with translation a*tb + ta. *)
Theorem MultiplyMatrix34_BuildMatrix34 (a b : Quaternion) (ta tb : Float3) :
  qnorm2 a = 1 -> qnorm2 b = 1 ->
  MultiplyMatrix34 (BuildMatrix34 a ta) (BuildMatrix34 b tb)
  = BuildMatrix34 (QuaternionMultiply a b) (f3add (RotateVectorByQuaternion a tb) ta).
Proof. apply MultiplyMatrix34_Build. Qed.

(** X6: MultiplyMatrix34 is associative, and SetIdentityMatrix34 is its left and right unit. *)
Theorem MultiplyMatrix34_monoid (a b c : Matrix34) :
  MultiplyMatrix34 (MultiplyMatrix34 a b) c = MultiplyMatrix34 a (MultiplyMatrix34 b c)
  /\ MultiplyMatrix34 SetIdentityMatrix34 a = a /\ MultiplyMatrix34 a SetIdentityMatrix34 = a.
Proof.
  destruct a, b, c. unfold MultiplyMatrix34, mat_of, mat_at, SetIdentityMatrix34; simpl.
  split; [| split]; f_equal; ring.
Qed.

(** X7: MultiplyMatrices computes the same matrix as MultiplyMatrix34. *)
Theorem MultiplyMatrices_MultiplyMatrix34 (a b : Matrix34) :
  MultiplyMatrices a b = MultiplyMatrix34 a b.
Proof.
  destruct a, b. unfold MultiplyMatrices, MultiplyMatrix34, mat_of, mat_at; simpl.
  f_equal; ring.
Qed.

Lemma lt_1e6 : 1 / 10 ^ 6 < 1.
Proof. simpl. lra. Qed.

Ltac finish_sign :=
  rewrite sqrt_Rsqr_abs; unfold Rabs;
  match goal with |- context [Rcase_abs ?c] => destruct (Rcase_abs c) as [Hs | Hs] end;
  [ exists (-1) | exists 1 ];
  (split; [ (left + right); reflexivity | ]);
  (apply (f_equal2 pair); [apply (f_equal2 pair); [reflexivity | f_equal; field; nra] | reflexivity]).

Lemma DecomposeMatrix_Build (q : Quaternion) (t : Float3) :
  qnorm2 q = 1 ->
  exists sgn, (sgn = 1 \/ sgn = -1) /\
    DecomposeMatrix (BuildMatrix34 q t)
    = (t, mkQuat (sgn * qx q) (sgn * qy q) (sgn * qz q) (sgn * qw q), Float3_one).
Proof.
  intros Hn. rewrite (BuildMatrix34_homog q t Hn).
  destruct q as [x y z w], t as [tx ty tz]. unfold qnorm2 in Hn; simpl in *.
  unfold DecomposeMatrix; simpl.
  pose proof lt_1e6 as H6. simpl in H6.
  do 3 (match goal with
  | |- context [sqrt ?e] =>
      let E := fresh in
      assert (E : e = (x * x + y * y + z * z + w * w) * (x * x + y * y + z * z + w * w)) by ring;
      rewrite E, Hn, Rmult_1_r, sqrt_1; clear E
  end;
  match goal with
  | |- context [Rgt_dec 1 ?e] => destruct (Rgt_dec 1 e) as [_ | Hc]; [| lra]
  end; simpl).
  rewrite ?Rdiv_1_r.
  destruct (Rgt_dec _ 0) as [Ht | Ht].
  { assert (Hw : 0 < w * w) by nra.
    match goal with |- context [sqrt ?e] => replace e with (Rsqr (2 * w)) by (unfold Rsqr; nra) end.
    finish_sign. }
  unfold Rgtb. destruct (Rgt_dec _ _) as [H01 | H01]; destruct (Rgt_dec _ _) as [H02 | H02]; simpl.
  { assert (Hx : 0 < x * x) by nra.
    match goal with |- context [sqrt ?e] => replace e with (Rsqr (2 * x)) by (unfold Rsqr; nra) end.
    finish_sign. }
  all: destruct (Rgt_dec _ _) as [H12 | H12].
  all: try (assert (Hy : 0 < y * y) by nra;
    match goal with |- context [sqrt ?e] => replace e with (Rsqr (2 * y)) by (unfold Rsqr; nra) end;
    finish_sign).
  all: assert (Hz : 0 < z * z) by nra;
    match goal with |- context [sqrt ?e] => replace e with (Rsqr (2 * z)) by (unfold Rsqr; nra) end;
    finish_sign.
Qed.

(** X8: DecomposeMatrix of BuildMatrix34 q t, for a unit quaternion q, returns the translation t, the rotation q up to sign, and unit scale. *)
Theorem DecomposeMatrix_BuildMatrix34 (q : Quaternion) (t : Float3) :
  qnorm2 q = 1 ->
  exists sgn, (sgn = 1 \/ sgn = -1) /\
    DecomposeMatrix (BuildMatrix34 q t)
    = (t, mkQuat (sgn * qx q) (sgn * qy q) (sgn * qz q) (sgn * qw q), Float3_one).
Proof. apply DecomposeMatrix_Build. Qed.

Lemma sqrt_sq_inv (n : R) : 1 / 10 ^ 6 <= sqrt n -> 1 / (sqrt n * sqrt n) * n = 1.
Proof.
  intros H. pose proof pos_1e6.
  assert (Hn : 0 <= n) by (destruct (Rle_or_lt 0 n) as [| Hl]; [assumption | rewrite (sqrt_neg_0 n) in H by lra; lra]).
  rewrite (sqrt_sqrt n Hn). field. intros E. rewrite E, sqrt_0 in H. lra.
Qed.

(** X10: InvertMatrix gives a left inverse under MultiplyMatrices when the three rotation columns of the matrix are pairwise orthogonal and each has length at least 1e-6. *)
Theorem InvertMatrix_left_inverse (m : Matrix34) :
  m00 m * m01 m + m10 m * m11 m + m20 m * m21 m = 0 ->
  m00 m * m02 m + m10 m * m12 m + m20 m * m22 m = 0 ->
  m01 m * m02 m + m11 m * m12 m + m21 m * m22 m = 0 ->
  1 / 10 ^ 6 <= sqrt (m00 m * m00 m + m10 m * m10 m + m20 m * m20 m) ->
  1 / 10 ^ 6 <= sqrt (m01 m * m01 m + m11 m * m11 m + m21 m * m21 m) ->
  1 / 10 ^ 6 <= sqrt (m02 m * m02 m + m12 m * m12 m + m22 m * m22 m) ->
  MultiplyMatrices (InvertMatrix m) m = SetIdentityMatrix34.
Proof.
  intros D01 D02 D12 S0 S1 S2.
  pose proof (sqrt_sq_inv _ S0) as N0. pose proof (sqrt_sq_inv _ S1) as N1.
  pose proof (sqrt_sq_inv _ S2) as N2.
  destruct m as [a00 a01 a02 a03 a10 a11 a12 a13 a20 a21 a22 a23]; simpl in *.
  unfold InvertMatrix, MultiplyMatrices, mat_of, mat_at, SetIdentityMatrix34; simpl.
  do 3 (destruct Rlt_dec; [lra |]).
  set (i0 := 1 / (sqrt (a00 * a00 + a10 * a10 + a20 * a20) * sqrt (a00 * a00 + a10 * a10 + a20 * a20))) in *.
  set (i1 := 1 / (sqrt (a01 * a01 + a11 * a11 + a21 * a21) * sqrt (a01 * a01 + a11 * a11 + a21 * a21))) in *.
  set (i2 := 1 / (sqrt (a02 * a02 + a12 * a12 + a22 * a22) * sqrt (a02 * a02 + a12 * a12 + a22 * a22))) in *.
  clearbody i0 i1 i2.
  f_equal;
  first
    [ ring
    | transitivity (i0 * (a00 * a00 + a10 * a10 + a20 * a20)); [ring | rewrite N0; ring]
    | transitivity (i1 * (a01 * a01 + a11 * a11 + a21 * a21)); [ring | rewrite N1; ring]
    | transitivity (i2 * (a02 * a02 + a12 * a12 + a22 * a22)); [ring | rewrite N2; ring]
    | transitivity (i0 * (a00 * a01 + a10 * a11 + a20 * a21)); [ring | rewrite D01; ring]
    | transitivity (i0 * (a00 * a02 + a10 * a12 + a20 * a22)); [ring | rewrite D02; ring]
    | transitivity (i1 * (a00 * a01 + a10 * a11 + a20 * a21)); [ring | rewrite D01; ring]
    | transitivity (i1 * (a01 * a02 + a11 * a12 + a21 * a22)); [ring | rewrite D12; ring]
    | transitivity (i2 * (a00 * a02 + a10 * a12 + a20 * a22)); [ring | rewrite D02; ring]
    | transitivity (i2 * (a01 * a02 + a11 * a12 + a21 * a22)); [ring | rewrite D12; ring] ].
Qed.

Lemma lt_1e10 : 1 / 10 ^ 10 < 1.
Proof. simpl. lra. Qed.

Lemma QuaternionNormalize_unit_id (q : Quaternion) : qnorm2 q = 1 -> QuaternionNormalize q = q.
Proof.
  unfold qnorm2, QuaternionNormalize. intros H. rewrite H.
  pose proof lt_1e10. destruct Rlt_dec as [Hc | _]; [lra |].
  rewrite sqrt_1. destruct q; simpl. f_equal; field.
Qed.

Lemma BuildMatrix34_sign (s : R) (q : Quaternion) (t : Float3) :
  s = 1 \/ s = -1 ->
  BuildMatrix34 (mkQuat (s * qx q) (s * qy q) (s * qz q) (s * qw q)) t = BuildMatrix34 q t.
Proof. intros [-> | ->]; unfold BuildMatrix34; simpl; f_equal; ring. Qed.

End GlaMathProps.

Section GlaBonesProps.
Import GlaMath GlaBones.

Lemma qmul_assoc (a b c : Quaternion) : qmul (qmul a b) c = qmul a (qmul b c).
Proof. unfold qmul; simpl; f_equal; ring. Qed.

Lemma qmul_conj_r (q : Quaternion) : qmul q (QuaternionConjugate q) = mkQuat 0 0 0 (qnorm2 q).
Proof. unfold qmul, QuaternionConjugate, qnorm2; simpl; f_equal; ring. Qed.

Lemma QuaternionConjugate_involutive (q : Quaternion) : QuaternionConjugate (QuaternionConjugate q) = q.
Proof. destruct q; unfold QuaternionConjugate; simpl; f_equal; ring. Qed.

Lemma RotateVectorByQuaternion_qmul (q : Quaternion) (v : Float3) :
  RotateVectorByQuaternion q v =
  let r := qmul (qmul q (mkQuat (f3x v) (f3y v) (f3z v) 0)) (QuaternionConjugate q) in
  mkFloat3 (qx r) (qy r) (qz r).
Proof. reflexivity. Qed.

Lemma rotation_pure (q : Quaternion) (v : Float3) :
  qw (qmul (qmul q (mkQuat (f3x v) (f3y v) (f3z v) 0)) (QuaternionConjugate q)) = 0.
Proof. unfold qmul, QuaternionConjugate; simpl; ring. Qed.

Lemma RotateVectorByQuaternion_conj_inverse (q : Quaternion) (v : Float3) :
  qnorm2 q = 1 ->
  RotateVectorByQuaternion q (RotateVectorByQuaternion (QuaternionConjugate q) v) = v.
Proof.
  intros N. rewrite (RotateVectorByQuaternion_qmul (QuaternionConjugate q)). cbv zeta.
  set (X := qmul (qmul (QuaternionConjugate q) (mkQuat (f3x v) (f3y v) (f3z v) 0))
                 (QuaternionConjugate (QuaternionConjugate q))).
  assert (EX : mkQuat (qx X) (qy X) (qz X) 0 = X).
  { pose proof (rotation_pure (QuaternionConjugate q) v) as W. fold X in W.
    destruct X as [a b c d]; simpl in *; rewrite W; reflexivity. }
  rewrite RotateVectorByQuaternion_qmul. cbv zeta. cbn [f3x f3y f3z]. rewrite EX.
  unfold X. rewrite QuaternionConjugate_involutive.
  rewrite <- (qmul_assoc q _ q), <- (qmul_assoc q (QuaternionConjugate q)), qmul_conj_r.
  rewrite (qmul_assoc _ q (QuaternionConjugate q)), qmul_conj_r, N.
  destruct v as [x y z]. unfold qmul; simpl. f_equal; ring.
Qed.

Lemma RotateVectorByQuaternion_conj_scale (s : R) (q : Quaternion) (v : Float3) :
  s = 1 \/ s = -1 ->
  RotateVectorByQuaternion (QuaternionConjugate (mkQuat (s * qx q) (s * qy q) (s * qz q) (s * qw q))) v
  = RotateVectorByQuaternion (QuaternionConjugate q) v.
Proof.
  intros [-> | ->]; unfold RotateVectorByQuaternion, QuaternionMultiply, QuaternionConjugate, qmul;
  simpl; f_equal; ring.
Qed.

(** X9: For a bone in range with a parent in range, both with rigid base poses built from unit quaternions, GetLocalBindPoseTransform succeeds with unit scale, and the parent's base pose times the local transform gives back the bone's base pose. *)
Theorem GetLocalBindPoseTransform_composes (bones : list GlaBone) (i : Z)
  (qp qc : Quaternion) (tp tc : Float3) :
  (0 <= i < Z.of_nat (List.length bones))%Z ->
  (0 <= parent (bone_at bones i) < Z.of_nat (List.length bones))%Z ->
  base_pose (bone_at bones (parent (bone_at bones i))) = BuildMatrix34 qp tp ->
  base_pose (bone_at bones i) = BuildMatrix34 qc tc ->
  qnorm2 qp = 1 -> qnorm2 qc = 1 ->
  exists translation rotation,
    GetLocalBindPoseTransform bones i = Some (translation, rotation, Float3_one)
    /\ MultiplyMatrix34 (base_pose (bone_at bones (parent (bone_at bones i))))
         (BuildMatrix34 rotation translation) = base_pose (bone_at bones i).
Proof.
  intros Hi Hp Ep Ec Np Nc.
  destruct (DecomposeMatrix_Build qp tp Np) as [sp [Sp Dp]].
  destruct (DecomposeMatrix_Build qc tc Nc) as [sc [Sc Dc]].
  unfold GetLocalBindPoseTransform, out_of_range. cbv zeta.
  replace (orb _ _) with false
    by (symmetry; apply Bool.orb_false_iff; split; [apply Z.ltb_ge | apply Z.leb_gt]; lia).
  destruct Z_lt_dec as [Hneg | _]; [lia |].
  rewrite Ep, Ec, Dp, Dc.
  eexists; eexists; split; [reflexivity |].
  set (r := QuaternionMultiply (QuaternionConjugate (mkQuat (sp * qx qp) (sp * qy qp) (sp * qz qp) (sp * qw qp)))
                               (mkQuat (sc * qx qc) (sc * qy qc) (sc * qz qc) (sc * qw qc))).
  assert (Nr : qnorm2 r = 1).
  { unfold r, QuaternionMultiply. rewrite qnorm2_qmul.
    destruct Sp as [-> | ->], Sc as [-> | ->]; revert Np Nc; unfold qnorm2; simpl; intros Np Nc; nra. }
  rewrite (QuaternionNormalize_unit_id r Nr).
  rewrite (MultiplyMatrix34_Build qp r _ _ Np Nr).
  assert (E : QuaternionMultiply qp r
              = mkQuat ((sp * sc) * qx qc) ((sp * sc) * qy qc) ((sp * sc) * qz qc) ((sp * sc) * qw qc)).
  { unfold r, QuaternionMultiply, QuaternionConjugate, qmul. simpl. f_equal;
    [ transitivity (sp * sc * qnorm2 qp * qx qc)
    | transitivity (sp * sc * qnorm2 qp * qy qc)
    | transitivity (sp * sc * qnorm2 qp * qz qc)
    | transitivity (sp * sc * qnorm2 qp * qw qc) ];
    unfold qnorm2; try ring; revert Np; unfold qnorm2; intros Np; rewrite Np; ring. }
  assert (Sq : sp * sp = 1) by (destruct Sp as [-> | ->]; ring).
  assert (T : f3add (RotateVectorByQuaternion qp
                       (RotateVectorByQuaternion
                          (QuaternionConjugate (mkQuat (sp * qx qp) (sp * qy qp) (sp * qz qp) (sp * qw qp)))
                          (mkFloat3 (f3x tc - f3x tp) (f3y tc - f3y tp) (f3z tc - f3z tp)))) tp = tc).
  { rewrite (RotateVectorByQuaternion_conj_scale sp qp _ Sp), (RotateVectorByQuaternion_conj_inverse qp _ Np).
    destruct tc as [cx cy cz]. unfold f3add; simpl. f_equal; ring. }
  rewrite E, T. apply BuildMatrix34_sign.
  destruct Sp as [-> | ->], Sc as [-> | ->]; [left | right | right | left]; ring.
Qed.

End GlaBonesProps.

(** ** Loading a GLA file: what a successful [Load] guarantees *)

Section GlaParserProps.
Import GlaParser.

Lemma byte_Z_range (file : list byte) (pos : Z) : (0 <= byte_Z file pos < 256)%Z.
Proof. unfold byte_Z. pose proof (Byte.to_N_bounded (nth (Z.to_nat pos) file x00)). lia. Qed.

Lemma read_i32_range (file : list byte) (pos : Z) : (- 2 ^ 31 <= read_i32 file pos < 2 ^ 31)%Z.
Proof.
  unfold read_i32, read_u32.
  pose proof (byte_Z_range file pos). pose proof (byte_Z_range file (pos + 1)).
  pose proof (byte_Z_range file (pos + 2)). pose proof (byte_Z_range file (pos + 3)).
  destruct Z_lt_dec; lia.
Qed.

Lemma size_t_small (z : Z) : (0 <= z < 2 ^ 64)%Z -> size_t z = z.
Proof. intros H. unfold size_t. apply Z.mod_small. exact H. Qed.

Lemma lor3_bytes (a b c : Z) :
  (0 <= a < 256)%Z -> (0 <= b < 256)%Z -> (0 <= c < 256)%Z ->
  Z.lor a (Z.lor (Z.shiftl b 8) (Z.shiftl c 16)) = (a + 256 * b + 65536 * c)%Z.
Proof.
  intros Ha Hb Hc.
  replace (Z.shiftl c 16) with (Z.shiftl (Z.shiftl c 8) 8)
    by (rewrite Z.shiftl_shiftl; [reflexivity | lia]).
  rewrite <- Z.shiftl_lor. rewrite (lor_shiftl8 b c) by lia. rewrite lor_shiftl8 by lia. lia.
Qed.

Lemma Load_inv (file : list byte) (st : GlaParserState) :
  Load file = Some st ->
  exists h bones, ParseHeader file = Some h /\ ParseSkeleton file h = Some bones
  /\ LoadFrameIndices file h = Some (m_frame_data st, m_frame_data_size st)
  /\ LoadCompressedBonePool file h = Some (m_bone_pool st, m_bone_pool_size st)
  /\ m_header st = h /\ m_bones st = bones /\ m_file_data st = file.
Proof.
  unfold Load. destruct (ParseHeader file) as [h |] eqn:E1; [| discriminate].
  destruct (ParseSkeleton file h) as [bones |] eqn:E2; [| discriminate].
  destruct (LoadFrameIndices file h) as [[fd fds] |] eqn:E3; [| discriminate].
  destruct (LoadCompressedBonePool file h) as [[bp bps] |] eqn:E4; [| discriminate].
  intros E. injection E as <-. exists h, bones. simpl. repeat split; assumption.
Qed.

Lemma ParseHeader_decode (file : list byte) (h : GlaHeader) :
  ParseHeader file = Some h -> h = decode_header file.
Proof.
  unfold ParseHeader. destruct Z_lt_dec; [discriminate |].
  destruct (negb _); [discriminate |]. destruct (negb _); [discriminate |]. congruence.
Qed.

Lemma ParseSkeleton_bounds (file : list byte) (h : GlaHeader) bones :
  ParseSkeleton file h = Some bones ->
  (0 < ofs_skel h < file_size file)%Z /\ (0 <= num_bones h)%Z.
Proof.
  unfold ParseSkeleton. destruct (orb _ _) eqn:E; [discriminate |].
  apply Bool.orb_false_iff in E as [E1 E2]. apply Z.leb_gt in E1. apply Z.leb_gt in E2.
  destruct Z_lt_dec; [discriminate |]. intros _. lia.
Qed.

Lemma LoadFrameIndices_bounds (file : list byte) (h : GlaHeader) fd fds :
  LoadFrameIndices file h = Some (fd, fds) ->
  fd = ofs_frames h /\ (0 < fd < file_size file)%Z
  /\ fds = size_t (size_t (num_frames h) * size_t (num_bones h * 3))
  /\ (fd + fds <= file_size file)%Z.
Proof.
  unfold LoadFrameIndices. destruct (orb _ _) eqn:E; [discriminate |].
  apply Bool.orb_false_iff in E as [E1 E2]. apply Z.leb_gt in E1. apply Z.leb_gt in E2.
  destruct Z_lt_dec; [discriminate |]. intros H. injection H as <- <-. lia.
Qed.

Lemma LoadCompressedBonePool_bounds (file : list byte) (h : GlaHeader) bp bps :
  LoadCompressedBonePool file h = Some (bp, bps) ->
  bp = ofs_comp_bone_pool h /\ (0 < bp < file_size file)%Z
  /\ bps = size_t ((if Z_lt_dec 0 (ofs_skel h) then size_t (ofs_skel h) else file_size file)
                   - size_t bp).
Proof.
  unfold LoadCompressedBonePool. destruct (orb _ _) eqn:E; [discriminate |].
  apply Bool.orb_false_iff in E as [E1 E2]. apply Z.leb_gt in E1. apply Z.leb_gt in E2.
  intros H. injection H as <- <-. split; [reflexivity | split; [lia | reflexivity]].
Qed.

Lemma read_bytes_some (file : list byte) (pos n : Z) :
  (0 <= pos)%Z -> (0 <= n)%Z -> (pos + n <= file_size file)%Z ->
  exists l, read_bytes file pos n = Some l /\ List.length l = Z.to_nat n.
Proof.
  intros H0 Hn Hle. unfold read_bytes.
  replace (andb _ _) with true by (symmetry; apply andb_true_intro; split; apply Z.leb_le; lia).
  eexists. split; [reflexivity |].
  unfold file_size in Hle. rewrite length_firstn, length_skipn. lia.
Qed.

Lemma ReadFrameIndex_range (file : list byte) (st : GlaParserState) (frame bone : Z) :
  Load file = Some st ->
  exists v, ReadFrameIndex st frame bone = Some v /\ (0 <= v < 2 ^ 24)%Z.
Proof.
  intros HL. destruct (Load_inv _ _ HL) as (h & bones & PH & PS & LF & LP & Hh & Hb & Hf).
  pose proof (ParseHeader_decode _ _ PH) as Hd.
  destruct (ParseSkeleton_bounds _ _ _ PS) as [Hsk Hnb].
  destruct (LoadFrameIndices_bounds _ _ _ _ LF) as (Hfd & Hfd0 & Hfds & Hfit).
  assert (Rnf : (- 2 ^ 31 <= num_frames h < 2 ^ 31)%Z)
    by (rewrite Hd; apply read_i32_range).
  assert (Rnb : (- 2 ^ 31 <= num_bones h < 2 ^ 31)%Z)
    by (rewrite Hd; apply read_i32_range).
  unfold ReadFrameIndex. rewrite Hh.
  destruct (orb _ _) eqn:Er; [exists 0%Z; split; [reflexivity | lia] |].
  apply Bool.orb_false_iff in Er as [Er1 Er2].
  apply Bool.orb_false_iff in Er1 as [Ef1 Ef2]. apply Bool.orb_false_iff in Er2 as [Eb1 Eb2].
  apply Z.ltb_ge in Ef1. apply Z.leb_gt in Ef2. apply Z.ltb_ge in Eb1. apply Z.leb_gt in Eb2.
  set (nf := num_frames h) in *. set (nb := num_bones h) in *.
  assert (Hfb : (0 <= frame * nb <= (nf - 1) * nb)%Z) by nia.
  assert (Hprod : (0 <= nf * (nb * 3) < 2 ^ 64)%Z) by nia.
  rewrite (size_t_small nf), (size_t_small (nb * 3)), (size_t_small (nf * (nb * 3))) in Hfds
    by lia.
  rewrite (size_t_small frame), (size_t_small nb), (size_t_small bone), (size_t_small (frame * nb)),
    (size_t_small (frame * nb * 3 + bone * 3)),
    (size_t_small (frame * nb * 3 + bone * 3 + 3)) by nia.
  destruct Z_lt_dec as [Hc | _]; [nia |].
  rewrite Hfd in Hfit.
  destruct (read_bytes_some (m_file_data st) (m_frame_data st + (frame * nb * 3 + bone * 3)) 3)
    as [l [El Ll]]; [lia | lia | rewrite Hf; nia |].
  rewrite El.
  destruct l as [| p0 [| p1 [| p2 [| p3 l]]]]; simpl in Ll; try lia.
  pose proof (Byte.to_N_bounded p0). pose proof (Byte.to_N_bounded p1).
  pose proof (Byte.to_N_bounded p2).
  eexists. split; [reflexivity |]. rewrite lor3_bytes by lia. lia.
Qed.

(** X11: After a successful Load, ReadFrameIndex never fails and returns a 24-bit index, for every frame and bone argument: the index is wrapped into the frame table that Load checked. *)
Theorem ReadFrameIndex_in_bounds (file : list byte) (st : GlaParserState) (frame bone : Z) :
  Load file = Some st ->
  exists v, ReadFrameIndex st frame bone = Some v /\ (0 <= v < 2 ^ 24)%Z.
Proof. apply ReadFrameIndex_range. Qed.

Lemma ParseSkeleton_fold_none (l : list nat) (f : option (list Z) -> nat -> option (list Z)) :
  (forall i, f None i = None) -> fold_left f l None = None.
Proof. intros Hf. induction l as [| i l IH]; simpl; [reflexivity | rewrite Hf; exact IH]. Qed.

Lemma ParseSkeleton_fold (file : list byte) (l : list nat) (acc ds : list Z) :
  fold_left
    (fun acc i =>
       match acc with
       | None => None
       | Some bones =>
           let bone_offset := read_i32 file (sizeof_GlaHeader + 4 * Z.of_nat i) in
           let bone_data := (sizeof_GlaHeader + bone_offset)%Z in
           if Z_lt_dec (file_size file) (bone_data + sizeof_GlaSkelBoneHeader)
           then None else Some (bones ++ [bone_data])
       end) l (Some acc) = Some ds ->
  ds = acc ++ map (fun i => sizeof_GlaHeader + read_i32 file (sizeof_GlaHeader + 4 * Z.of_nat i))%Z l
  /\ Forall (fun i => sizeof_GlaHeader + read_i32 file (sizeof_GlaHeader + 4 * Z.of_nat i)
                      + sizeof_GlaSkelBoneHeader <= file_size file)%Z l.
Proof.
  revert acc. induction l as [| i l IH]; intros acc; simpl.
  - intros E. injection E as <-. rewrite app_nil_r. split; [reflexivity | constructor].
  - destruct Z_lt_dec as [Hlt | Hge].
    + rewrite ParseSkeleton_fold_none by reflexivity. discriminate.
    + intros E. destruct (IH _ E) as [-> HF]. rewrite <- app_assoc. split; [reflexivity |].
      constructor; [lia | exact HF].
Qed.

Lemma size_t_nonneg (z : Z) : (0 <= size_t z < 2 ^ 64)%Z.
Proof. unfold size_t. apply Z.mod_pos_bound. lia. Qed.

(** X12: When ParseSkeleton succeeds, each bone record offset is 100 plus the bone's signed 32-bit offset entry, and ofs_skel lies strictly inside the file. Every 172-byte bone header ends at or before the end of the file; no lower bound on where it starts is given. *)
Theorem ParseSkeleton_records (file : list byte) (h : GlaHeader) (ds : list Z) :
  ParseSkeleton file h = Some ds ->
  ds = map (fun i => sizeof_GlaHeader + read_i32 file (sizeof_GlaHeader + 4 * Z.of_nat i))%Z
           (seq 0 (Z.to_nat (num_bones h)))
  /\ (0 < ofs_skel h < file_size file)%Z
  /\ Forall (fun d => d + sizeof_GlaSkelBoneHeader <= file_size file)%Z ds.
Proof.
  intros HP. destruct (ParseSkeleton_bounds _ _ _ HP) as [Hsk Hnb].
  revert HP. unfold ParseSkeleton.
  destruct (orb _ _); [discriminate |]. destruct Z_lt_dec; [discriminate |].
  destruct Z_lt_dec as [| Hfit]; [discriminate |].
  intros HF. destruct (ParseSkeleton_fold _ _ _ _ HF) as [-> HB].
  split; [reflexivity |]. split; [exact Hsk |].
  simpl. apply Forall_map. exact HB.
Qed.

(** X13: After a successful Load of a file whose compressed bone pool starts no later than ofs_skel, GetBoneTransform never reports an out-of-bounds pool read. *)
Theorem GetBoneTransform_in_file (file : list byte) (st : GlaParserState) (frame bone : Z) :
  Load file = Some st ->
  (ofs_comp_bone_pool (m_header st) <= ofs_skel (m_header st))%Z ->
  GetBoneTransform st frame bone <> GR_out_of_bounds.
Proof.
  intros HL Hle. destruct (Load_inv _ _ HL) as (h & bones & PH & PS & LF & LP & Hh & Hb & Hf).
  pose proof (ParseHeader_decode _ _ PH) as Hd.
  destruct (ParseSkeleton_bounds _ _ _ PS) as [Hsk Hnb].
  destruct (LoadCompressedBonePool_bounds _ _ _ _ LP) as (Hbp & Hbp0 & Hbps).
  assert (Rsk : (- 2 ^ 31 <= ofs_skel h < 2 ^ 31)%Z) by (rewrite Hd; apply read_i32_range).
  rewrite Hh in Hle.
  destruct (ReadFrameIndex_range file st frame bone HL) as [v [Ev Rv]].
  unfold GetBoneTransform. destruct (orb _ _); [congruence |].
  rewrite Ev. rewrite (size_t_small (v * 14)), (size_t_small (v * 14 + 14)) by lia.
  destruct (Z_lt_dec (m_bone_pool_size st) _) as [| Hin]; [congruence |].
  destruct (Z_lt_dec 0 (ofs_skel h)) as [_ | ]; [| lia].
  rewrite (size_t_small (ofs_skel h)), (size_t_small (m_bone_pool st)) in Hbps by lia.
  rewrite size_t_small in Hbps by lia.
  destruct (read_bytes_some (m_file_data st) (m_bone_pool st + v * 14) 14) as [l [El _]];
    [lia | lia | rewrite Hf; lia |].
  rewrite El. destruct GlaDecompress.DecompressBone. congruence.
Qed.

End GlaParserProps.


(** ** The importer's keys *)

Section ImportProps.
Import Ozz GlaImporter.

Lemma nth_prop {A} (P : A -> Prop) (l : list A) (j : nat) (d : A) :
  Forall P l -> P d -> P (nth j l d).
Proof.
  intros HF Hd. destruct (nth_in_or_default j l d) as [Hin | ->]; [| exact Hd].
  rewrite Forall_forall in HF. apply HF. exact Hin.
Qed.

Lemma local_transform_unit (sk : Skeleton) (worlds : list (Float3 * Quaternion)) (j : nat) :
  Forall (fun w => qnorm2 (snd w) = 1) worlds ->
  qnorm2 (snd (local_transform sk worlds j)) = 1.
Proof.
  intros HF.
  assert (Hd : qnorm2 (snd world_default) = 1) by (unfold qnorm2; simpl; ring).
  pose proof (nth_prop _ worlds j world_default HF Hd) as Hj.
  unfold local_transform.
  destruct (nth j worlds world_default) as [pj rj].
  destruct Z_lt_dec; [exact Hj |].
  destruct (nth (Z.to_nat (joint_parent sk j)) worlds world_default) as [pp rp].
  simpl. apply NormalizeQuaternion_qnorm2.
Qed.

Lemma phase1_unit (sk : Skeleton) (src : GlaSource) (f : Z) :
  Forall (fun w => qnorm2 (snd w) = 1) (phase1 sk src f).
Proof.
  unfold phase1. apply Forall_map, Forall_forall. intros j _.
  destruct (ozz_to_gla_find sk src j) as [b |].
  - destruct (ComputeAnimatedWorldTransform src f (Z.of_nat b)). simpl.
    apply NormalizeQuaternion_qnorm2.
  - unfold qnorm2; simpl; ring.
Qed.

Lemma fill_keys_prop {A} (P : A -> Prop) (animated : bool) (dflt : A) (d : R) (ks : list (Key A)) :
  Forall (fun k => P (key_value k)) ks -> P dflt ->
  Forall (fun k => P (key_value k)) (fill_keys animated dflt d ks).
Proof.
  intros HF Hd. unfold fill_keys.
  set (ks' := if orb (negb animated) (Nat.eqb (List.length ks) 0) then [mkKey 0 dflt] else ks).
  assert (HF' : Forall (fun k => P (key_value k)) ks').
  { unfold ks'. destruct (orb _ _); [constructor; [exact Hd | constructor] | exact HF]. }
  destruct (andb _ _); [| exact HF'].
  apply Forall_app. split; [exact HF' |]. constructor; [| constructor]. simpl.
  apply (nth_prop (fun k => P (key_value k)) ks' 0 (mkKey 0 dflt) HF' Hd).
Qed.

Lemma ImportWith_keys (phase : Skeleton -> GlaSource -> Z -> list (Float3 * Quaternion))
  (src : GlaSource) (clip : option AnimationClip) (nm : string) (sk : Skeleton) (sr : R)
  (V : RawAnimation -> bool) (a : RawAnimation) :
  (forall f, Forall (fun w => qnorm2 (snd w) = 1) (phase sk src f)) ->
  ImportWith phase src clip nm sk sr V = Some a ->
  Forall (fun tr => Forall (fun k => qnorm2 (key_value k) = 1) (rotations tr)
                    /\ Forall (fun k => key_value k = Float3_one) (scales tr)) (tracks a).
Proof.
  intros Hph HI. destruct clip as [c |]; [| discriminate].
  destruct (ImportWith_spec _ _ _ _ _ _ _ _ HI) as (_ & _ & ->).
  apply Forall_map, Forall_forall. intros i _. unfold fill_track; simpl. split.
  - apply (fill_keys_prop (fun q => qnorm2 q = 1)); [| unfold qnorm2; simpl; ring].
    apply Forall_map, Forall_forall. intros f _. simpl. apply local_transform_unit, Hph.
  - apply (fill_keys_prop (fun s => s = Float3_one)); [| reflexivity].
    apply Forall_map, Forall_forall. intros f _. reflexivity.
Qed.

(** X14: When the GLA animation Import succeeds, every rotation key of every track is a unit quaternion and every scale key is (1,1,1). *)
Theorem Import_keys_unit_rotation_unit_scale (src : GlaSource) (clip : option AnimationClip)
  (nm : string) (sk : Skeleton) (sr : R) (V : RawAnimation -> bool) (a : RawAnimation) :
  Import src clip nm sk sr V = Some a ->
  Forall (fun tr => Forall (fun k => qnorm2 (key_value k) = 1) (rotations tr)
                    /\ Forall (fun k => key_value k = Float3_one) (scales tr)) (tracks a).
Proof. apply ImportWith_keys. apply phase1_unit. Qed.

End ImportProps.

(** ** Name lookups of the importer: the last match wins *)

Section LookupProps.
Import Ozz GlaImporter.

Lemma fold_last_match (p : nat -> bool) (k : nat) :
  (forall i, fold_left (fun acc i => if p i then Some i else acc) (seq 0 k) None = Some i
             <-> (i < k)%nat /\ p i = true /\ forall j, (i < j < k)%nat -> p j = false)
  /\ (fold_left (fun acc i => if p i then Some i else acc) (seq 0 k) None = None
      <-> forall j, (j < k)%nat -> p j = false).
Proof.
  induction k as [| k [IHs IHn]].
  - simpl. split; [intros i; split; [discriminate | intros [H _]; lia] |].
    split; [intros _ j Hj; lia | reflexivity].
  - rewrite seq_S, fold_left_app. simpl.
    destruct (p k) eqn:Pk.
    + split.
      * intros i; split.
        -- intros E. injection E as <-. split; [lia |]. split; [exact Pk | intros j Hj; lia].
        -- intros (Hi & Pi & Hj). f_equal.
           destruct (Nat.eq_dec i k) as [-> | Hne]; [reflexivity |].
           rewrite (Hj k) in Pk by lia. discriminate.
      * split; [discriminate |]. intros H. rewrite (H k) in Pk by lia. discriminate.
    + split.
      * intros i. rewrite IHs. split.
        -- intros (Hi & Pi & Hj). split; [lia |]. split; [exact Pi |].
           intros j Hj'. destruct (Nat.eq_dec j k) as [-> | Hne]; [exact Pk | apply Hj; lia].
        -- intros (Hi & Pi & Hj). assert (Hik : i <> k) by (intros ->; congruence).
           split; [lia |]. split; [exact Pi |]. intros j Hj'. apply Hj. lia.
      * rewrite IHn. split.
        -- intros H j Hj. destruct (Nat.eq_dec j k) as [-> | Hne]; [exact Pk | apply H; lia].
        -- intros H j Hj. apply H. lia.
Qed.

Lemma fold_left_ext_in {A B} (f g : A -> B -> A) (l : list B) (a : A) :
  (forall x b, f x b = g x b) -> fold_left f l a = fold_left g l a.
Proof.
  intros H. revert a. induction l as [| b l IH]; intros a; simpl; [reflexivity |].
  rewrite H. apply IH.
Qed.

(** X15: The joint_map built by the importer finds, for a name, the last joint index carrying that name, and finds nothing exactly when the name is not among the joint names. *)
Theorem joint_map_find_last (names : list string) (n : string) :
  (forall i, joint_map_find names n = Some i
             <-> (i < List.length names)%nat /\ nth i names ""%string = n
                 /\ forall j, (i < j < List.length names)%nat -> nth j names ""%string <> n)
  /\ (joint_map_find names n = None <-> ~ In n names).
Proof.
  destruct (fold_last_match (fun i => String.eqb (nth i names ""%string) n) (List.length names))
    as [Hs Hn].
  unfold joint_map_find. split.
  - intros i. rewrite Hs. split.
    + intros (Hi & Pi & Hj). apply String.eqb_eq in Pi. split; [exact Hi |]. split; [exact Pi |].
      intros j Hj' E. apply String.eqb_neq in E; [exact E | apply Hj; exact Hj'].
    + intros (Hi & Pi & Hj). split; [exact Hi |]. split; [apply String.eqb_eq; exact Pi |].
      intros j Hj'. apply String.eqb_neq. apply Hj. exact Hj'.
  - rewrite Hn. split.
    + intros H Hin. destruct (In_nth names n ""%string Hin) as [j [Hj E]].
      specialize (H j Hj). rewrite E, String.eqb_refl in H. discriminate.
    + intros Hnin j Hj. apply String.eqb_neq. intros E. apply Hnin. rewrite <- E.
      apply nth_In. exact Hj.
Qed.

(** X16: The ozz_to_gla map built by the importer sends a joint j to the last GLA bone whose name joint_map sends to j. *)
Theorem ozz_to_gla_find_last (sk : Skeleton) (src : GlaSource) (j b : nat) :
  ozz_to_gla_find sk src j = Some b
  <-> (b < List.length (gla_bone_names src))%nat
      /\ joint_map_find (joint_names sk) (nth b (gla_bone_names src) ""%string) = Some j
      /\ forall b', (b < b' < List.length (gla_bone_names src))%nat ->
           joint_map_find (joint_names sk) (nth b' (gla_bone_names src) ""%string) <> Some j.
Proof.
  set (p := fun b => match joint_map_find (joint_names sk) (nth b (gla_bone_names src) ""%string) with
                     | Some j' => Nat.eqb j' j | None => false end).
  assert (Hp : forall b, p b = true <-> joint_map_find (joint_names sk)
                                         (nth b (gla_bone_names src) ""%string) = Some j).
  { intros b0. unfold p. destruct (joint_map_find _ _) as [j' |]; [| split; discriminate].
    rewrite Nat.eqb_eq. split; [intros -> | intros E; injection E]; auto. }
  unfold ozz_to_gla_find.
  rewrite (fold_left_ext_in _ (fun acc b => if p b then Some b else acc)).
  2: { intros acc b0. unfold p. destruct (joint_map_find _ _); [| reflexivity].
       destruct (Nat.eqb _ _); reflexivity. }
  destruct (fold_last_match p (List.length (gla_bone_names src))) as [Hs _].
  rewrite Hs. split.
  - intros (Hi & Pi & Hj). split; [exact Hi |]. split; [apply Hp; exact Pi |].
    intros b' Hb' E. apply Hp in E. rewrite (Hj b' Hb') in E. discriminate.
  - intros (Hi & Pi & Hj). split; [exact Hi |]. split; [apply Hp; exact Pi |].
    intros b' Hb'. destruct (p b') eqn:E; [| reflexivity].
    exfalso. apply (Hj b' Hb'). apply Hp. exact E.
Qed.

End LookupProps.

(** ** The retargeter's rotation helpers *)

Section RetargetHelperProps.
Import Ozz RetargetMain RetargetHelpers.

Lemma qmul_identity_r (q : Quaternion) : qmul q Quaternion_identity = q.
Proof. destruct q; unfold qmul, Quaternion_identity; simpl; f_equal; ring. Qed.

Lemma qnorm2_QuatInverse (q : Quaternion) : qnorm2 (QuatInverse q) = qnorm2 q.
Proof. unfold qnorm2, QuatInverse; simpl; ring. Qed.

Lemma QuatNormalize_unit_id (q : Quaternion) : qnorm2 q = 1 -> QuatNormalize q = q.
Proof.
  intros N. unfold QuatNormalize. fold (qnorm2 q). rewrite N, sqrt_1.
  destruct Rgt_dec as [_ | H]; [| lra].
  destruct q; simpl; f_equal; field.
Qed.

Lemma qmul_inverse_r (q : Quaternion) : qnorm2 q = 1 -> QuatMul q (QuatInverse q) = Quaternion_identity.
Proof.
  intros N. unfold QuatMul, QuatInverse, qmul, Quaternion_identity; simpl. f_equal; try ring.
  revert N; unfold qnorm2; intros N. rewrite <- N. ring.
Qed.

Lemma qmul_inverse_l (q : Quaternion) : qnorm2 q = 1 -> QuatMul (QuatInverse q) q = Quaternion_identity.
Proof.
  intros N. unfold QuatMul, QuatInverse, qmul, Quaternion_identity; simpl. f_equal; try ring.
  revert N; unfold qnorm2; intros N. rewrite <- N. ring.
Qed.

(** X17: For unit quaternions, RetargetRotation equals source_rotation * inverse(source_rest) * target_rest, and a source rotation equal to its rest pose yields the target rest pose. *)
Theorem RetargetRotation_unit (source_rotation source_rest target_rest : Quaternion) :
  qnorm2 source_rotation = 1 -> qnorm2 source_rest = 1 -> qnorm2 target_rest = 1 ->
  RetargetRotation source_rotation source_rest target_rest
  = QuatMul (QuatMul source_rotation (QuatInverse source_rest)) target_rest
  /\ RetargetRotation source_rest source_rest target_rest = target_rest.
Proof.
  intros Ns Nr Nt. unfold RetargetRotation. split.
  - apply QuatNormalize_unit_id. unfold QuatMul. rewrite !qnorm2_qmul, qnorm2_QuatInverse, Ns, Nr, Nt.
    ring.
  - rewrite (qmul_inverse_r _ Nr).
    replace (QuatMul Quaternion_identity target_rest) with target_rest
      by (destruct target_rest; unfold QuatMul, qmul, Quaternion_identity; simpl; f_equal; ring).
    apply QuatNormalize_unit_id. exact Nt.
Qed.

(** X18: For a unit parent world rotation, composing the parent with WorldToLocal gives back the world rotation, and WorldToLocal of parent*local gives back local. *)
Theorem WorldToLocal_round_trip (world parent_world : Quaternion) :
  qnorm2 parent_world = 1 ->
  QuatMul parent_world (WorldToLocal world parent_world) = world
  /\ WorldToLocal (QuatMul parent_world world) parent_world = world.
Proof.
  intros N. unfold WorldToLocal. split.
  - unfold QuatMul at 1. fold (QuatMul parent_world (QuatInverse parent_world)) in *.
    unfold QuatMul. rewrite <- qmul_assoc. fold (QuatMul parent_world (QuatInverse parent_world)).
    rewrite (qmul_inverse_r _ N).
    destruct world; unfold qmul, Quaternion_identity; simpl; f_equal; ring.
  - unfold QuatMul. rewrite <- qmul_assoc. fold (QuatMul (QuatInverse parent_world) parent_world).
    rewrite (qmul_inverse_l _ N).
    destruct world; unfold qmul, Quaternion_identity; simpl; f_equal; ring.
Qed.

Section WorldRotations.
Variable sk : Skeleton.
Variable locals : list Transform.
Hypothesis parents_first : forall i, (i < num_joints sk)%nat -> (joint_parent sk i < Z.of_nat i)%Z.

Lemma world_rotation_loop_chain (swr0 : list Quaternion) :
  List.length swr0 = num_joints sk ->
  forall j fuel w, (j < num_joints sk)%nat -> (j < fuel)%nat ->
  world_rotation_loop fuel locals sk (Z.of_nat j) w
  = Some (QuatMul (nth j (source_worlds sk locals swr0) Quaternion_identity) w).
Proof.
  intros Hlen.
  destruct (source_worlds_prefix sk locals parents_first (num_joints sk) swr0 ltac:(lia) Hlen)
    as [_ Hsw].
  cbv zeta in Hsw. fold (source_worlds sk locals swr0) in Hsw.
  intros j. induction j as [j IH] using lt_wf_ind. intros fuel w Hj Hf.
  destruct fuel as [| fuel]; [lia |]. simpl.
  destruct (Z_lt_dec (Z.of_nat j) 0) as [Hneg | _]; [lia |].
  rewrite Nat2Z.id. rewrite (Hsw j Hj). pose proof (parents_first j Hj) as Pj.
  destruct (Z_lt_dec (joint_parent sk j) 0) as [Hr | Hr].
  - destruct fuel; simpl; destruct Z_lt_dec; try lia; reflexivity.
  - replace (joint_parent sk j) with (Z.of_nat (Z.to_nat (joint_parent sk j))) at 1 by lia.
    rewrite (IH (Z.to_nat (joint_parent sk j))) by lia.
    unfold QuatMul. rewrite qmul_assoc. reflexivity.
Qed.

End WorldRotations.

(** X19: When every joint's parent precedes it, the recursive ComputeWorldRotation of a joint equals the entry that the main loop's single parents-first pass stores for that joint. *)
Theorem ComputeWorldRotation_source_worlds (sk : Skeleton) (locals : list Transform)
  (swr0 : list Quaternion) (fuel j : nat) :
  (forall i, (i < num_joints sk)%nat -> (joint_parent sk i < Z.of_nat i)%Z) ->
  List.length swr0 = num_joints sk ->
  (j < num_joints sk)%nat -> (j < fuel)%nat ->
  ComputeWorldRotation fuel locals sk (Z.of_nat j)
  = Some (nth j (source_worlds sk locals swr0) Quaternion_identity).
Proof.
  intros Hp Hlen Hj Hf. unfold ComputeWorldRotation.
  rewrite (world_rotation_loop_chain sk locals Hp swr0 Hlen j fuel _ Hj Hf).
  unfold QuatMul. rewrite qmul_identity_r. reflexivity.
Qed.

End RetargetHelperProps.

(** ** Animated bone matrices are rigid motions *)

Section BoneMatrixProps.
Import GlaMath GlaBones.

Lemma ComputeBoneMatrix_chain (bones : list GlaBone) (anim : Z -> Float3 * Quaternion) :
  (forall i, (0 <= i < Z.of_nat (List.length bones))%Z -> (parent (bone_at bones i) < i)%Z) ->
  (forall b, qnorm2 (snd (anim b)) = 1) ->
  forall n fuel, (n < fuel)%nat -> (Z.of_nat n < Z.of_nat (List.length bones))%Z ->
  exists q t, qnorm2 q = 1
              /\ ComputeBoneMatrix fuel bones anim (Z.of_nat n) = Some (BuildMatrix34 q t).
Proof.
  intros Hp Ha n. induction n as [n IH] using lt_wf_ind. intros fuel Hf Hn.
  destruct fuel as [| fuel]; [lia |]. cbn [ComputeBoneMatrix].
  pose proof (Ha (Z.of_nat n)) as Hr.
  destruct (anim (Z.of_nat n)) as [anim_trans anim_rot]. simpl in Hr.
  destruct Z_lt_dec as [Hroot | Hchild].
  - exists anim_rot, anim_trans. split; [exact Hr | reflexivity].
  - pose proof (Hp (Z.of_nat n) ltac:(lia)) as Pn.
    set (p := parent (bone_at bones (Z.of_nat n))) in *.
    destruct (IH (Z.to_nat p) ltac:(lia) fuel ltac:(lia) ltac:(lia)) as [qp [tp [Np Ep]]].
    rewrite Z2Nat.id in Ep by lia. rewrite Ep.
    exists (QuaternionMultiply qp anim_rot), (f3add (RotateVectorByQuaternion qp anim_trans) tp).
    split.
    + unfold QuaternionMultiply. rewrite qnorm2_qmul, Np, Hr. ring.
    + rewrite (MultiplyMatrix34_Build qp anim_rot tp anim_trans Np Hr). reflexivity.
Qed.

(** X20: When parents precede children and animated rotations are unit, ComputeBoneMatrix of a bone in range, with enough recursion depth, is a rigid matrix BuildMatrix34 q t with q a unit quaternion. *)
Theorem ComputeBoneMatrix_rigid (bones : list GlaBone) (anim : Z -> Float3 * Quaternion)
  (fuel : nat) (bone_index : Z) :
  (forall i, (0 <= i < Z.of_nat (List.length bones))%Z -> (parent (bone_at bones i) < i)%Z) ->
  (forall b, qnorm2 (snd (anim b)) = 1) ->
  (0 <= bone_index < Z.of_nat (List.length bones))%Z -> (Z.to_nat bone_index < fuel)%nat ->
  exists q t, qnorm2 q = 1
              /\ ComputeBoneMatrix fuel bones anim bone_index = Some (BuildMatrix34 q t).
Proof.
  intros Hp Ha Hi Hf.
  destruct (ComputeBoneMatrix_chain bones anim Hp Ha (Z.to_nat bone_index) fuel Hf ltac:(lia))
    as [q [t [N E]]].
  rewrite Z2Nat.id in E by lia. exists q, t. split; [exact N | exact E].
Qed.

(** X21: Under the conditions of X20, with a rigid base pose, ComputeAnimatedWorldTransform returns the bone matrix applied to the base-pose translation, and the bone rotation times the base-pose rotation up to sign. *)
Theorem ComputeAnimatedWorldTransform_composes (bones : list GlaBone)
  (anim : Z -> Float3 * Quaternion) (fuel : nat) (bone_index : Z) (qb : Quaternion) (tb : Float3) :
  (forall i, (0 <= i < Z.of_nat (List.length bones))%Z -> (parent (bone_at bones i) < i)%Z) ->
  (forall b, qnorm2 (snd (anim b)) = 1) ->
  (0 <= bone_index < Z.of_nat (List.length bones))%Z -> (Z.to_nat bone_index < fuel)%nat ->
  base_pose (bone_at bones bone_index) = BuildMatrix34 qb tb -> qnorm2 qb = 1 ->
  exists q t sgn,
    ComputeBoneMatrix fuel bones anim bone_index = Some (BuildMatrix34 q t)
    /\ qnorm2 q = 1 /\ (sgn = 1 \/ sgn = -1)
    /\ ComputeAnimatedWorldTransform fuel bones anim bone_index
       = Some (f3add (RotateVectorByQuaternion q tb) t,
               let r := QuaternionMultiply q qb in
               mkQuat (sgn * qx r) (sgn * qy r) (sgn * qz r) (sgn * qw r)).
Proof.
  intros Hp Ha Hi Hf Eb Nb.
  destruct (ComputeBoneMatrix_chain bones anim Hp Ha (Z.to_nat bone_index) fuel Hf ltac:(lia))
    as [q [t [N E]]].
  rewrite Z2Nat.id in E by lia.
  assert (Nr : qnorm2 (QuaternionMultiply q qb) = 1)
    by (unfold QuaternionMultiply; rewrite qnorm2_qmul, N, Nb; ring).
  destruct (DecomposeMatrix_Build (QuaternionMultiply q qb)
              (f3add (RotateVectorByQuaternion q tb) t) Nr) as [sgn [Sg D]].
  exists q, t, sgn. split; [exact E |]. split; [exact N |]. split; [exact Sg |].
  unfold ComputeAnimatedWorldTransform. rewrite E, Eb, (MultiplyMatrix34_Build q qb t tb N Nb).
  unfold DecomposeMatrix34. rewrite D. cbv zeta.
  rewrite QuaternionNormalize_unit_id.
  - unfold BuildMatrix34. reflexivity.
  - set (r := QuaternionMultiply q qb) in *.
    transitivity (sgn * sgn * qnorm2 r); [unfold qnorm2; simpl; ring |].
    rewrite Nr. destruct Sg as [-> | ->]; ring.
Qed.

End BoneMatrixProps.

(** ** The retargeter's keys and its sampling failures *)

Section RetargetProps.
Import Ozz RetargetMain.

Lemma Forall_of_nth {A} (P : A -> Prop) (l : list A) (d : A) :
  (forall f, (f < List.length l)%nat -> P (nth f l d)) -> Forall P l.
Proof.
  intros H. apply Forall_forall. intros x Hx.
  destruct (In_nth l x d Hx) as [f [Hf <-]]. apply H. exact Hf.
Qed.

(** X22: When the retargeting main loop succeeds, every rotation key of a mapped target bone that has source bones is a unit quaternion, and every scale key of it is (1,1,1). *)
Theorem Retarget_mapped_keys_unit (mapper : BoneMapper.Lookups) (src tgt : Skeleton)
  (dur sr : R) (Sample : R -> option (list Transform)) (q0 : Quaternion)
  (V : RawAnimation -> bool) (a : RawAnimation) (t : nat) :
  Retarget mapper src tgt dur sr Sample q0 V = Some a ->
  (t < num_joints tgt)%nat ->
  is_mapped (mapping_info mapper (nth t (joint_names tgt) ""%string)) = true ->
  source_indices (mapping_info mapper (nth t (joint_names tgt) ""%string)) <> [] ->
  Forall (fun k => qnorm2 (key_value k) = 1) (rotations (nth t (tracks a) empty_track))
  /\ Forall (fun k => key_value k = Float3_one) (scales (nth t (tracks a) empty_track)).
Proof.
  intros HR Ht Hm Hs.
  destruct (Retarget_spec _ _ _ _ _ _ _ _ _ HR) as (_ & _ & K).
  destruct (K t Ht) as [[_ [Lr Ls]] Kf]. clear K.
  set (info := mapping_info mapper (nth t (joint_names tgt) ""%string)) in *.
  assert (Hpose : forall locals swr tpw,
             qnorm2 (rotation (target_pose tgt src info locals swr tpw t)) = 1
             /\ scale (target_pose tgt src info locals swr tpw t) = Float3_one).
  { intros locals swr tpw. unfold target_pose. rewrite Hm.
    destruct (source_indices info) as [| s0 ss] eqn:Es; [congruence |]. simpl.
    destruct (source_world_and_translation src info locals swr). simpl.
    split; [apply QuatNormalize_qnorm2 | reflexivity]. }
  split.
  - apply (Forall_of_nth _ _ (mkKey 0 Quaternion_identity)). intros f Hf. rewrite Lr in Hf.
    destruct (Kf f Hf) as (locals & swr & twr & _ & _ & Er & _). rewrite Er. simpl.
    apply Hpose.
  - apply (Forall_of_nth _ _ (mkKey 0 Float3_one)). intros f Hf. rewrite Ls in Hf.
    destruct (Kf f Hf) as (locals & swr & twr & _ & _ & _ & Es). rewrite Es. simpl.
    apply Hpose.
Qed.

Lemma frames_loop_samples (src tgt : Skeleton) (infos : list BoneMappingInfo)
  (Sample : R -> option (list Transform)) (duration ts : R) (frames : list nat) :
  forall st st', frames_loop src tgt infos Sample duration ts frames st = Some st' ->
  forall f, In f frames -> exists locals, Sample (INR f * ts / duration) = Some locals.
Proof.
  induction frames as [| f0 fs IH]; intros st st' E f Hin; [destruct Hin |].
  simpl in E. destruct (frame_step src tgt infos Sample duration ts st f0) as [st1 |] eqn:Ef;
    [| discriminate].
  destruct Hin as [<- | Hin]; [| exact (IH _ _ E f Hin)].
  unfold frame_step in Ef. destruct st as [[trs swr] twr].
  destruct (Sample (INR f0 * ts / duration)) as [locals |]; [| discriminate].
  exists locals. reflexivity.
Qed.

(** X23: If sampling the source animation fails at any frame of the keyframe loop, the retargeting run fails. *)
Theorem Retarget_sampling_failure (mapper : BoneMapper.Lookups) (src tgt : Skeleton)
  (dur sr : R) (Sample : R -> option (list Transform)) (q0 : Quaternion)
  (V : RawAnimation -> bool) (f : nat) :
  (f < Z.to_nat (num_keyframes dur sr))%nat ->
  Sample (INR f * time_step dur (num_keyframes dur sr) / dur) = None ->
  Retarget mapper src tgt dur sr Sample q0 V = None.
Proof.
  intros Hf HS. unfold Retarget. cbv zeta.
  destruct (frames_loop _ _ _ _ _ _ _ _) as [st |] eqn:E; [| reflexivity].
  destruct (frames_loop_samples _ _ _ _ _ _ _ _ _ E f) as [locals Hl].
  - apply in_seq. lia.
  - congruence.
Qed.

End RetargetProps.

(** ** Bind pose queries *)

Section BindPoseProps.
Import GlaMath GlaBones.

Lemma DecomposeMatrix_translation (m : Matrix34) :
  fst (fst (DecomposeMatrix m)) = mkFloat3 (m03 m) (m13 m) (m23 m).
Proof.
  unfold DecomposeMatrix. cbv zeta.
  repeat (destruct (Rgt_dec _ _)); simpl; reflexivity.
Qed.

(** X24: GetBindPoseTransform fails exactly for an out-of-range bone; GetLocalBindPoseTransform then fails too, and GetWorldPosition returns (0,0,0). Otherwise the bind-pose translation equals GetWorldPosition. *)
Theorem GetBindPoseTransform_GetWorldPosition (bones : list GlaBone) (bone_index : Z) :
  match GetBindPoseTransform bones bone_index with
  | None => out_of_range bones bone_index = true
            /\ GetLocalBindPoseTransform bones bone_index = None
            /\ GetWorldPosition bones bone_index = mkFloat3 0 0 0
  | Some (translation, _, _) => out_of_range bones bone_index = false
                                /\ translation = GetWorldPosition bones bone_index
  end.
Proof.
  unfold GetBindPoseTransform, GetLocalBindPoseTransform, GetWorldPosition.
  destruct (out_of_range bones bone_index).
  - repeat split.
  - pose proof (DecomposeMatrix_translation (base_pose (bone_at bones bone_index))) as T.
    destruct (DecomposeMatrix _) as [[p r] sc]. simpl in T. split; [reflexivity | exact T].
Qed.

End BindPoseProps.

(** ** Animated transforms in parent space *)

Section ParentSpaceProps.
Import GlaMath GlaBones.

Lemma ComputeAnimatedWorldTransform_unit (fuel : nat) (bones : list GlaBone)
  (anim : Z -> Float3 * Quaternion) (bone_index : Z) (p : Float3) (q : Quaternion) :
  ComputeAnimatedWorldTransform fuel bones anim bone_index = Some (p, q) -> qnorm2 q = 1.
Proof.
  unfold ComputeAnimatedWorldTransform.
  destruct (ComputeBoneMatrix fuel bones anim bone_index) as [m |]; [| discriminate].
  unfold DecomposeMatrix34. destruct (DecomposeMatrix _) as [[t r] s].
  intros E. injection E as _ <-. apply NormalizeQuaternion_qnorm2.
Qed.

Lemma ComputeAnimatedWorldTransform_some (fuel : nat) (bones : list GlaBone)
  (anim : Z -> Float3 * Quaternion) (bone_index : Z) (m : Matrix34) :
  ComputeBoneMatrix fuel bones anim bone_index = Some m ->
  exists p q, ComputeAnimatedWorldTransform fuel bones anim bone_index = Some (p, q).
Proof.
  intros H. unfold ComputeAnimatedWorldTransform. rewrite H.
  destruct (DecomposeMatrix34 _) as [[t r] s]. eauto.
Qed.

Lemma qnorm2_QuaternionConjugate (q : Quaternion) : qnorm2 (QuaternionConjugate q) = qnorm2 q.
Proof. unfold qnorm2, QuaternionConjugate; simpl; ring. Qed.

(** X25: When GetAnimTransformInParentSpace succeeds, a root bone gets its animated world transform. Any other bone gets a local transform that, composed with the parent's world transform, gives the bone's world transform. *)
Theorem GetAnimTransformInParentSpace_composes (fuel : nat) (bones : list GlaBone)
  (anim : Z -> Float3 * Quaternion) (bone_index : Z) (translation : Float3) (rotation : Quaternion) :
  GetAnimTransformInParentSpace fuel bones anim bone_index = Some (Some (translation, rotation)) ->
  exists child_pos child_rot,
    ComputeAnimatedWorldTransform fuel bones anim bone_index = Some (child_pos, child_rot)
    /\ ((parent (bone_at bones bone_index) < 0)%Z /\ (translation, rotation) = (child_pos, child_rot)
        \/ (0 <= parent (bone_at bones bone_index))%Z
           /\ exists parent_pos parent_rot,
                ComputeAnimatedWorldTransform fuel bones anim (parent (bone_at bones bone_index))
                = Some (parent_pos, parent_rot)
                /\ QuaternionMultiply parent_rot rotation = child_rot
                /\ f3add (RotateVectorByQuaternion parent_rot translation) parent_pos = child_pos).
Proof.
  intros H. unfold GetAnimTransformInParentSpace in H.
  destruct (out_of_range bones bone_index); [discriminate |]. cbv zeta in H.
  destruct (ComputeAnimatedWorldTransform fuel bones anim bone_index) as [[cp cr] |] eqn:Ec;
    [| discriminate].
  pose proof (ComputeAnimatedWorldTransform_unit _ _ _ _ _ _ Ec) as Ncr.
  exists cp, cr. split; [reflexivity |].
  destruct Z_lt_dec as [Hr | Hr].
  - injection H as <- <-. left. split; [exact Hr | reflexivity].
  - destruct (ComputeAnimatedWorldTransform fuel bones anim (parent (bone_at bones bone_index)))
      as [[pp pr] |] eqn:Ep; [| discriminate].
    pose proof (ComputeAnimatedWorldTransform_unit _ _ _ _ _ _ Ep) as Npr.
    injection H as <- <-. right. split; [lia |].
    exists pp, pr. split; [reflexivity |]. split.
    + rewrite QuaternionNormalize_unit_id.
      * unfold QuaternionMultiply. rewrite <- qmul_assoc, qmul_conj_r, Npr.
        destruct cr; unfold qmul; simpl; f_equal; ring.
      * unfold QuaternionMultiply. rewrite qnorm2_qmul, qnorm2_QuaternionConjugate, Npr, Ncr. ring.
    + rewrite (RotateVectorByQuaternion_conj_inverse pr _ Npr).
      destruct cp, pp; unfold f3add; simpl; f_equal; ring.
Qed.

End ParentSpaceProps.

(** ** Instances of the properties above on concrete inputs *)

Section ExtraWitnesses.
Import GlaMath GlaBones.

Ltac unit_quat := unfold qnorm2; simpl; ring.

Lemma RotateVectorByQuaternion_length_witness :
  qnorm2 (mkQuat 0 0 1 0) = 1
  /\ vnorm2 (RotateVectorByQuaternion (mkQuat 0 0 1 0) (mkFloat3 1 2 3)) = vnorm2 (mkFloat3 1 2 3).
Proof.
  split; [unit_quat |].
  apply (RotateVectorByQuaternion_length (mkQuat 0 0 1 0) (mkFloat3 1 2 3)). unit_quat.
Defined.

Lemma BuildMatrix34_transform_point_witness :
  qnorm2 (mkQuat 0 0 1 0) = 1
  /\ transform_point (BuildMatrix34 (mkQuat 0 0 1 0) (mkFloat3 1 0 0)) (mkFloat3 1 2 3)
     = f3add (RotateVectorByQuaternion (mkQuat 0 0 1 0) (mkFloat3 1 2 3)) (mkFloat3 1 0 0).
Proof.
  split; [unit_quat |].
  apply (BuildMatrix34_transform_point (mkQuat 0 0 1 0) (mkFloat3 1 0 0) (mkFloat3 1 2 3)).
  unit_quat.
Defined.

Lemma MultiplyMatrix34_BuildMatrix34_witness :
  qnorm2 (mkQuat 0 0 1 0) = 1 /\ qnorm2 (mkQuat 1 0 0 0) = 1
  /\ MultiplyMatrix34 (BuildMatrix34 (mkQuat 0 0 1 0) (mkFloat3 1 2 3))
       (BuildMatrix34 (mkQuat 1 0 0 0) (mkFloat3 0 4 0))
     = BuildMatrix34 (QuaternionMultiply (mkQuat 0 0 1 0) (mkQuat 1 0 0 0))
         (f3add (RotateVectorByQuaternion (mkQuat 0 0 1 0) (mkFloat3 0 4 0)) (mkFloat3 1 2 3)).
Proof.
  split; [unit_quat |]. split; [unit_quat |].
  apply (MultiplyMatrix34_BuildMatrix34 (mkQuat 0 0 1 0) (mkQuat 1 0 0 0)
           (mkFloat3 1 2 3) (mkFloat3 0 4 0)); unit_quat.
Defined.

Lemma DecomposeMatrix_BuildMatrix34_witness :
  qnorm2 (mkQuat 0 0 1 0) = 1
  /\ exists sgn, (sgn = 1 \/ sgn = -1) /\
       DecomposeMatrix (BuildMatrix34 (mkQuat 0 0 1 0) (mkFloat3 1 2 3))
       = (mkFloat3 1 2 3, mkQuat (sgn * 0) (sgn * 0) (sgn * 1) (sgn * 0), Float3_one).
Proof.
  split; [unit_quat |].
  apply (DecomposeMatrix_BuildMatrix34 (mkQuat 0 0 1 0) (mkFloat3 1 2 3)). unit_quat.
Defined.

Lemma sqrt_ge_1e6 (x : R) : 1 <= x -> 1 / 10 ^ 6 <= sqrt x.
Proof.
  intros H. apply Rle_trans with 1.
  - simpl. apply Rmult_le_reg_r with (10 * (10 * (10 * (10 * (10 * (10 * 1)))))); [lra |].
    unfold Rdiv. rewrite Rmult_assoc, Rinv_l by lra. lra.
  - rewrite <- sqrt_1. apply sqrt_le_1; lra.
Qed.

Lemma InvertMatrix_left_inverse_witness :
  MultiplyMatrices (InvertMatrix scale_matrix) scale_matrix = SetIdentityMatrix34.
Proof.
  apply (InvertMatrix_left_inverse scale_matrix); unfold scale_matrix; simpl;
    first [ring | apply sqrt_ge_1e6; lra].
Defined.

Lemma GetLocalBindPoseTransform_composes_witness :
  exists translation rotation,
    GetLocalBindPoseTransform two_bones 1 = Some (translation, rotation, Float3_one)
    /\ MultiplyMatrix34 (base_pose (bone_at two_bones (parent (bone_at two_bones 1))))
         (BuildMatrix34 rotation translation) = base_pose (bone_at two_bones 1).
Proof.
  apply (GetLocalBindPoseTransform_composes two_bones 1 (mkQuat 0 0 1 0) (mkQuat 1 0 0 0)
           (mkFloat3 1 2 3) (mkFloat3 0 4 0)).
  - simpl. lia.
  - simpl. lia.
  - reflexivity.
  - reflexivity.
  - unit_quat.
  - unit_quat.
Defined.

Lemma ComputeBoneMatrix_rigid_witness :
  exists q t, qnorm2 q = 1
    /\ ComputeBoneMatrix 2 two_bones (fun _ => (mkFloat3 1 0 0, mkQuat 0 1 0 0)) 1
       = Some (BuildMatrix34 q t).
Proof.
  apply ComputeBoneMatrix_rigid.
  - intros i Hi. simpl in Hi. assert (Hc : i = 0%Z \/ i = 1%Z) by lia.
    destruct Hc as [-> | ->]; simpl; lia.
  - intros b. unit_quat.
  - simpl. lia.
  - simpl. lia.
Defined.

Lemma ComputeAnimatedWorldTransform_composes_witness :
  exists q t sgn,
    ComputeBoneMatrix 2 two_bones (fun _ => (mkFloat3 1 0 0, mkQuat 0 1 0 0)) 1
    = Some (BuildMatrix34 q t)
    /\ qnorm2 q = 1 /\ (sgn = 1 \/ sgn = -1)
    /\ ComputeAnimatedWorldTransform 2 two_bones (fun _ => (mkFloat3 1 0 0, mkQuat 0 1 0 0)) 1
       = Some (f3add (RotateVectorByQuaternion q (mkFloat3 0 4 0)) t,
               let r := QuaternionMultiply q (mkQuat 1 0 0 0) in
               mkQuat (sgn * qx r) (sgn * qy r) (sgn * qz r) (sgn * qw r)).
Proof.
  apply ComputeAnimatedWorldTransform_composes.
  - intros i Hi. simpl in Hi. assert (Hc : i = 0%Z \/ i = 1%Z) by lia.
    destruct Hc as [-> | ->]; simpl; lia.
  - intros b. unit_quat.
  - simpl. lia.
  - simpl. lia.
  - reflexivity.
  - unit_quat.
Defined.

Lemma GetAnimTransformInParentSpace_composes_witness :
  match GetAnimTransformInParentSpace 2 two_bones (fun _ => (mkFloat3 1 0 0, mkQuat 0 1 0 0)) 1 with
  | Some (Some (translation, rotation)) =>
      exists child_pos child_rot,
        ComputeAnimatedWorldTransform 2 two_bones (fun _ => (mkFloat3 1 0 0, mkQuat 0 1 0 0)) 1
        = Some (child_pos, child_rot)
        /\ ((parent (bone_at two_bones 1) < 0)%Z /\ (translation, rotation) = (child_pos, child_rot)
            \/ (0 <= parent (bone_at two_bones 1))%Z
               /\ exists parent_pos parent_rot,
                    ComputeAnimatedWorldTransform 2 two_bones
                      (fun _ => (mkFloat3 1 0 0, mkQuat 0 1 0 0)) (parent (bone_at two_bones 1))
                    = Some (parent_pos, parent_rot)
                    /\ QuaternionMultiply parent_rot rotation = child_rot
                    /\ f3add (RotateVectorByQuaternion parent_rot translation) parent_pos = child_pos)
  | _ => False
  end.
Proof.
  destruct (GetAnimTransformInParentSpace 2 two_bones (fun _ => (mkFloat3 1 0 0, mkQuat 0 1 0 0)) 1)
    as [[[translation rotation] |] |] eqn:E.
  - exact (GetAnimTransformInParentSpace_composes 2 two_bones _ 1 translation rotation E).
  - exfalso.
    destruct (ComputeBoneMatrix 2 two_bones (fun _ => (mkFloat3 1 0 0, mkQuat 0 1 0 0)) 1)
      as [m1 |] eqn:C1; [| vm_compute in C1; discriminate C1].
    destruct (ComputeBoneMatrix 2 two_bones (fun _ => (mkFloat3 1 0 0, mkQuat 0 1 0 0))
                (parent (bone_at two_bones 1))) as [m0 |] eqn:C0; [| vm_compute in C0; discriminate C0].
    destruct (ComputeAnimatedWorldTransform_some _ _ _ _ _ C1) as [p1 [q1 W1]].
    destruct (ComputeAnimatedWorldTransform_some _ _ _ _ _ C0) as [p0 [q0 W0]].
    revert E. unfold GetAnimTransformInParentSpace.
    replace (out_of_range two_bones 1) with false by reflexivity. cbv zeta. rewrite W1.
    destruct Z_lt_dec as [Hc | _]; [vm_compute in Hc; discriminate Hc |].
    rewrite W0. discriminate.
  - exfalso.
    destruct (ComputeBoneMatrix 2 two_bones (fun _ => (mkFloat3 1 0 0, mkQuat 0 1 0 0)) 1)
      as [m1 |] eqn:C1; [| vm_compute in C1; discriminate C1].
    destruct (ComputeBoneMatrix 2 two_bones (fun _ => (mkFloat3 1 0 0, mkQuat 0 1 0 0))
                (parent (bone_at two_bones 1))) as [m0 |] eqn:C0; [| vm_compute in C0; discriminate C0].
    destruct (ComputeAnimatedWorldTransform_some _ _ _ _ _ C1) as [p1 [q1 W1]].
    destruct (ComputeAnimatedWorldTransform_some _ _ _ _ _ C0) as [p0 [q0 W0]].
    revert E. unfold GetAnimTransformInParentSpace.
    replace (out_of_range two_bones 1) with false by reflexivity. cbv zeta. rewrite W1.
    destruct Z_lt_dec as [Hc | _]; [vm_compute in Hc; discriminate Hc |].
    rewrite W0. discriminate.
Defined.

End ExtraWitnesses.

Section ParserWitnesses.
Import GlaParser.

Lemma ReadFrameIndex_in_bounds_witness :
  exists st, Load pool_before_skel_file = Some st
    /\ exists v, ReadFrameIndex st 0 0 = Some v /\ (0 <= v < 2 ^ 24)%Z.
Proof.
  set (st := match Load pool_before_skel_file with Some s => s | None => empty_state end).
  assert (E : Load pool_before_skel_file = Some st) by (vm_compute; reflexivity).
  exists st. split; [exact E |]. exact (ReadFrameIndex_in_bounds pool_before_skel_file st 0 0 E).
Defined.

Lemma ParseSkeleton_records_witness :
  exists ds, ParseSkeleton pool_before_skel_file (decode_header pool_before_skel_file) = Some ds
    /\ ds = map (fun i => sizeof_GlaHeader
                          + read_i32 pool_before_skel_file (sizeof_GlaHeader + 4 * Z.of_nat i))%Z
              (seq 0 (Z.to_nat (num_bones (decode_header pool_before_skel_file))))
    /\ (0 < ofs_skel (decode_header pool_before_skel_file) < file_size pool_before_skel_file)%Z
    /\ Forall (fun d => d + sizeof_GlaSkelBoneHeader <= file_size pool_before_skel_file)%Z ds.
Proof.
  set (ds := match ParseSkeleton pool_before_skel_file (decode_header pool_before_skel_file) with
             | Some l => l | None => [] end).
  assert (E : ParseSkeleton pool_before_skel_file (decode_header pool_before_skel_file) = Some ds)
    by (vm_compute; reflexivity).
  exists ds. split; [exact E |].
  exact (ParseSkeleton_records pool_before_skel_file _ ds E).
Defined.

Lemma GetBoneTransform_in_file_witness :
  exists st, Load pool_before_skel_file = Some st
    /\ (ofs_comp_bone_pool (m_header st) <= ofs_skel (m_header st))%Z
    /\ GetBoneTransform st 0 0 <> GR_out_of_bounds.
Proof.
  set (st := match Load pool_before_skel_file with Some s => s | None => empty_state end).
  assert (E : Load pool_before_skel_file = Some st) by (vm_compute; reflexivity).
  assert (Hle : (ofs_comp_bone_pool (m_header st) <= ofs_skel (m_header st))%Z)
    by (apply Z.leb_le; vm_compute; reflexivity).
  exists st. split; [exact E |]. split; [exact Hle |].
  exact (GetBoneTransform_in_file pool_before_skel_file st 0 0 E Hle).
Defined.

End ParserWitnesses.

Section ImportRetargetWitnesses.
Import Ozz GlaImporter RetargetMain RetargetHelpers.

Lemma Import_keys_unit_rotation_unit_scale_witness :
  exists a, Import src_root (Some clip2) "walk" sk_root 30 (fun _ => true) = Some a
    /\ Forall (fun tr => Forall (fun k => qnorm2 (key_value k) = 1) (rotations tr)
                         /\ Forall (fun k => key_value k = Float3_one) (scales tr)) (tracks a).
Proof.
  eexists. split; [reflexivity |].
  apply (Import_keys_unit_rotation_unit_scale src_root (Some clip2) "walk" sk_root 30
           (fun _ => true)).
  reflexivity.
Defined.

Lemma RetargetRotation_unit_witness :
  RetargetRotation (mkQuat 0 0 1 0) (mkQuat 1 0 0 0) (mkQuat 0 1 0 0)
  = QuatMul (QuatMul (mkQuat 0 0 1 0) (QuatInverse (mkQuat 1 0 0 0))) (mkQuat 0 1 0 0)
  /\ RetargetRotation (mkQuat 1 0 0 0) (mkQuat 1 0 0 0) (mkQuat 0 1 0 0) = mkQuat 0 1 0 0.
Proof.
  apply RetargetRotation_unit; unfold qnorm2; simpl; ring.
Defined.

Lemma WorldToLocal_round_trip_witness :
  QuatMul (mkQuat 0 0 1 0) (WorldToLocal (mkQuat 1 0 0 0) (mkQuat 0 0 1 0)) = mkQuat 1 0 0 0
  /\ WorldToLocal (QuatMul (mkQuat 0 0 1 0) (mkQuat 1 0 0 0)) (mkQuat 0 0 1 0) = mkQuat 1 0 0 0.
Proof.
  apply WorldToLocal_round_trip. unfold qnorm2; simpl; ring.
Defined.

Lemma ComputeWorldRotation_source_worlds_witness :
  let locals := match sample_const 0 with Some l => l | None => [] end in
  ComputeWorldRotation 3 locals src_chain 2
  = Some (nth 2 (source_worlds src_chain locals (repeat Quaternion_identity 3)) Quaternion_identity).
Proof.
  intros locals.
  apply (ComputeWorldRotation_source_worlds src_chain locals (repeat Quaternion_identity 3) 3 2).
  - intros i Hi. unfold num_joints in Hi. simpl in Hi.
    destruct i as [| [| [| i]]]; unfold joint_parent; simpl; lia.
  - reflexivity.
  - unfold num_joints. simpl. lia.
  - lia.
Defined.

Lemma Retarget_mapped_keys_unit_witness :
  exists a,
    Retarget mapper_chain src_chain tgt_chain 1 1 sample_const Quaternion_identity
      (fun _ => true) = Some a
    /\ Forall (fun k => qnorm2 (key_value k) = 1) (rotations (nth 0 (tracks a) empty_track))
    /\ Forall (fun k => key_value k = Float3_one) (scales (nth 0 (tracks a) empty_track)).
Proof.
  eexists. split.
  - unfold Retarget. rewrite num_keyframes_1_1. reflexivity.
  - apply (Retarget_mapped_keys_unit mapper_chain src_chain tgt_chain 1 1 sample_const
             Quaternion_identity (fun _ => true) _ 0).
    + unfold Retarget. rewrite num_keyframes_1_1. reflexivity.
    + unfold num_joints. simpl. lia.
    + reflexivity.
    + simpl. discriminate.
Defined.

Lemma Retarget_sampling_failure_witness :
  Retarget mapper_chain src_chain tgt_chain 1 1 (fun _ => None) Quaternion_identity
    (fun _ => true) = None.
Proof.
  apply (Retarget_sampling_failure mapper_chain src_chain tgt_chain 1 1 (fun _ => None)
           Quaternion_identity (fun _ => true) 0).
  - rewrite num_keyframes_1_1. simpl. lia.
  - reflexivity.
Defined.

End ImportRetargetWitnesses.
